(** * APE metrics dashboard: record extraction, filtering, aggregation,
      preview resolution and the offline PDF to PNG converter.

    Shallow embedding of [app.py] and [convert_pdfs_to_pngs.py].

    Conventions of the embedding.
    - Values produced by [json.load] are [pyval]s; a Python [dict] is an
      association list looked up from the left.
    - Python exceptions are the [Raise] outcome of [result].
    - Numbers are exact rationals ([Qc]): a float stands for the rational it
      denotes, rounding of floating-point arithmetic is not represented.
    - The file system is a finite map from paths to file contents.
    - [os.path] is [posixpath]. *)

From Stdlib Require Import String Ascii List ZArith QArith Qcanon Lia.
From Stdlib Require Import Permutation Sorted.
From stdpp Require Import base option list sorting strings gmap.

Import ListNotations.
Open Scope string_scope.

(* ===================================================================== *)
(** * Python values and exceptions *)
(* ===================================================================== *)

Inductive exn : Type :=
  | AttributeError
  | TypeError
  | KeyError
  | ConversionError.

Inductive result (A : Type) : Type :=
  | Ok (a : A)
  | Raise (e : exn).

Arguments Ok {A} a.
Arguments Raise {A} e.

Definition rbind {A B : Type} (r : result A) (k : A -> result B) : result B :=
  match r with
  | Ok a => k a
  | Raise e => Raise e
  end.

Notation "x <- r ;; k" := (rbind r (fun x => k))
  (at level 100, r at next level, right associativity).

(** What [json.load] can return. *)
#[local] Set Warnings "-register-all".
Inductive pyval : Type :=
  | PyNone
  | PyBool (b : bool)
  | PyInt (z : Z)
  | PyFloat (q : Qc)
  | PyStr (s : string)
  | PyList (l : list pyval)
  | PyDict (d : list (string * pyval)).

Definition dict : Type := list (string * pyval).

Fixpoint dict_lookup (k : string) (d : dict) : option pyval :=
  match d with
  | [] => None
  | (k', v) :: d' => if String.eqb k k' then Some v else dict_lookup k d'
  end.

(** [entry.get(k, default)]: only a dict has the method. *)
Definition py_get (entry : pyval) (k : string) (default : pyval)
  : result pyval :=
  match entry with
  | PyDict d =>
      match dict_lookup k d with
      | Some v => Ok v
      | None => Ok default
      end
  | _ => Raise AttributeError
  end.

(* ===================================================================== *)
(** * Strings: [in], [split], [os.path.basename] *)
(* ===================================================================== *)

(** [sub in s] on two [str]. *)
Fixpoint str_in (sub s : string) : bool :=
  String.prefix sub s ||
  match s with
  | EmptyString => false
  | String _ t => str_in sub t
  end.

Definition is_str (s : string) (v : pyval) : bool :=
  match v with
  | PyStr s' => String.eqb s s'
  | _ => false
  end.

(** [s in v] for a [str] on the left: substring of a [str], element of a
    [list], key of a [dict]; anything else is not iterable. *)
Definition py_in (s : string) (v : pyval) : result bool :=
  match v with
  | PyStr t => Ok (str_in s t)
  | PyList l => Ok (existsb (is_str s) l)
  | PyDict d => Ok (existsb (fun kv => String.eqb s (fst kv)) d)
  | _ => Raise TypeError
  end.

(** [s.split(sep)] for a one-character separator: never empty. *)
Fixpoint split (sep : ascii) (s : string) : list string :=
  match s with
  | EmptyString => [EmptyString]
  | String c t =>
      if Ascii.eqb c sep then EmptyString :: split sep t
      else
        match split sep t with
        | h :: r => String c h :: r
        | [] => [String c EmptyString]
        end
  end.

Definition py_split (v : pyval) (sep : ascii) : result (list string) :=
  match v with
  | PyStr s => Ok (split sep s)
  | _ => Raise AttributeError
  end.

(** [posixpath.basename]: what follows the last slash. *)
Fixpoint basename (p : string) : string :=
  match p with
  | EmptyString => EmptyString
  | String c t =>
      if str_in "/" t then basename t
      else if Ascii.eqb c "/" then t
      else p
  end.

Definition os_path_basename (v : pyval) : result string :=
  match v with
  | PyStr p => Ok (basename p)
  | _ => Raise TypeError
  end.

(* ===================================================================== *)
(** * Record extraction ([app.py], the loop over [data]) *)
(* ===================================================================== *)

(** The dictionaries appended to [records], and later the rows of the
    data frame.  [S] is the type of the cells of the Algorithm and Video
    columns, [N] of the six statistics, [C] of the Subtag column: the loop
    stores whatever [entry.get] returned ([S = N = pyval], [C = string]). *)
Record record (S N C : Type) : Type := mkRecord {
  Algorithm : S;
  Tag : string;
  Subtag : C;
  Video : S;
  RMSE : N;
  Mean : N;
  Median : N;
  Std : N;
  Min : N;
  Max : N;
  Plot_PDF : string
}.

Arguments mkRecord {S N C}.
Arguments Algorithm {S N C} r.
Arguments Tag {S N C} r.
Arguments Subtag {S N C} r.
Arguments Video {S N C} r.
Arguments RMSE {S N C} r.
Arguments Mean {S N C} r.
Arguments Median {S N C} r.
Arguments Std {S N C} r.
Arguments Min {S N C} r.
Arguments Max {S N C} r.
Arguments Plot_PDF {S N C} r.

Abbreviation raw_record := (record pyval pyval string).

(** One iteration of the loop: [None] is [continue], [Some r] is
    [records.append(r)]. *)
Definition extract_entry (entry : pyval) : result (option raw_record) :=
  algo <- py_get entry "algorithm" (PyStr "") ;;
  gt <- py_in "groundTruth" algo ;;
  if gt then Ok None
  else
    rel_path <- py_get entry "algorithm_relative_folder" (PyStr "") ;;
    folder <- py_get entry "folder" (PyStr "") ;;
    raw_plot <- py_get entry "plot_path" (PyStr "") ;;
    plot_path <- os_path_basename raw_plot ;;
    parts <- py_split rel_path "/" ;;
    match parts with
    | tag1 :: tag2 :: _ =>
        rmse <- py_get entry "rmse" PyNone ;;
        mean <- py_get entry "mean" PyNone ;;
        median <- py_get entry "median" PyNone ;;
        std <- py_get entry "std" PyNone ;;
        min <- py_get entry "min" PyNone ;;
        max <- py_get entry "max" PyNone ;;
        Ok (Some (mkRecord algo tag1 tag2 folder
                    rmse mean median std min max plot_path))
    | _ => Ok None
    end.

Fixpoint extract_loop (data : list pyval) (records : list raw_record)
  : result (list raw_record) :=
  match data with
  | [] => Ok records
  | entry :: rest =>
      r <- extract_entry entry ;;
      extract_loop rest
        (match r with
         | Some x => records ++ [x]
         | None => records
         end)
  end.

Definition extract (data : list pyval) : result (list raw_record) :=
  extract_loop data [].

(* ===================================================================== *)
(** * The data frame ([df]) *)
(* ===================================================================== *)

(** The frame is modelled on record sets whose Algorithm and Video cells are
    strings and whose statistics are numbers or null ([None] is NaN): a
    [typed_record] is such a dictionary, a [row] is a row of [df] once the
    Subtag column has been made categorical ([None] is NaN). *)
Abbreviation typed_record := (record string (option Qc) string).
Abbreviation row := (record string (option Qc) (option string)).

Definition cell_str (v : pyval) : option string :=
  match v with
  | PyStr s => Some s
  | _ => None
  end.

Definition cell_num (v : pyval) : option (option Qc) :=
  match v with
  | PyNone => Some None
  | PyInt z => Some (Some (Q2Qc (inject_Z z)))
  | PyFloat q => Some (Some q)
  | _ => None
  end.

(** The typed reading of an extracted dictionary, when it has one. *)
Definition typed (r : raw_record) : option typed_record :=
  algo ← cell_str (Algorithm r);
  video ← cell_str (Video r);
  rmse ← cell_num (RMSE r);
  mean ← cell_num (Mean r);
  median ← cell_num (Median r);
  std ← cell_num (Std r);
  min ← cell_num (Min r);
  max ← cell_num (Max r);
  Some (mkRecord algo (Tag r) (Subtag r) video
          rmse mean median std min max (Plot_PDF r)).

Definition subtag_order : list string :=
  ["mp4_verylow"; "mp4_low"; "mp4_mid"; "mp4_medium"; "mp4_high"].

(** One cell of [pd.Categorical(values, categories=..., ordered=True)]:
    a value outside the categories becomes NaN. *)
Definition Categorical (categories : list string) (v : string)
  : option string :=
  if decide (v ∈ categories) then Some v else None.

Definition categorical_row (r : typed_record) : row :=
  mkRecord (Algorithm r) (Tag r) (Categorical subtag_order (Subtag r))
    (Video r) (RMSE r) (Mean r) (Median r) (Std r) (Min r) (Max r)
    (Plot_PDF r).

(** [df = pd.DataFrame(records)] followed by the assignment to
    [df["Subtag"]]: a frame built from no record has no column, and reading
    its Subtag column raises [KeyError]. *)
Definition DataFrame (records : list typed_record) : result (list row) :=
  match records with
  | [] => Raise KeyError
  | _ => Ok (map categorical_row records)
  end.

(** [Series.unique()]: the distinct values in order of first appearance. *)
Fixpoint unique_from (seen l : list string) : list string :=
  match l with
  | [] => []
  | x :: t =>
      if decide (x ∈ seen) then unique_from seen t
      else x :: unique_from (x :: seen) t
  end.

Definition unique (l : list string) : list string := unique_from [] l.

(** [sorted] on a list of [str]. *)
Definition sorted (l : list string) : list string := merge_sort String.le l.

(** [Series.dropna()] *)
Definition dropna {A : Type} (l : list (option A)) : list A := omap id l.

(* ===================================================================== *)
(** * Case-insensitive regular-expression search ([Series.str.contains]) *)
(* ===================================================================== *)

(** [str.contains(pat, case=False, na=False)] compiles [pat] as a regular
    expression with [re.IGNORECASE] and keeps the cells in which
    [regex.search] finds a match.  The model covers the patterns made of
    ordinary characters and of the dot; on any other pattern it gives no
    answer ([None]).  Case folding is that of the ASCII letters. *)

Definition re_special : list ascii :=
  list_ascii_of_string ".^$*+?{}[]\|()".

Inductive re_atom : Type :=
  | Lit (c : ascii)
  | AnyChar.

Definition lower (c : ascii) : ascii :=
  let n := nat_of_ascii c in
  if (65 <=? n)%nat && (n <=? 90)%nat then ascii_of_nat (n + 32) else c.

Fixpoint lower_str (s : string) : string :=
  match s with
  | EmptyString => EmptyString
  | String c t => String (lower c) (lower_str t)
  end.

Fixpoint re_compile (pat : string) : option (list re_atom) :=
  match pat with
  | EmptyString => Some []
  | String c t =>
      atoms ← re_compile t;
      if Ascii.eqb c "." then Some (AnyChar :: atoms)
      else if decide (c ∈ re_special) then None
      else Some (Lit c :: atoms)
  end.

Definition atom_matches (a : re_atom) (c : ascii) : bool :=
  match a with
  | Lit x => Ascii.eqb (lower x) (lower c)
  | AnyChar => negb (Ascii.eqb c "010")
  end.

Fixpoint match_here (atoms : list re_atom) (s : string) : bool :=
  match atoms, s with
  | [], _ => true
  | a :: atoms', String c t => atom_matches a c && match_here atoms' t
  | _ :: _, EmptyString => false
  end.

Fixpoint re_search (atoms : list re_atom) (s : string) : bool :=
  match_here atoms s ||
  match s with
  | EmptyString => false
  | String _ t => re_search atoms t
  end.

Definition str_contains (pat : string) : option (string -> bool) :=
  atoms ← re_compile pat;
  Some (re_search atoms).

(* ===================================================================== *)
(** * Sidebar filters *)
(* ===================================================================== *)

(** What the four sidebar widgets return in one run of the script. *)
Record sidebar : Type := mkSidebar {
  selected_algorithm : string;
  selected_tags : list string;
  selected_subtags : list string;
  video_search : string
}.

Definition algorithm_options (df : list row) : list string :=
  "All algorithms" :: sorted (unique (map Algorithm df)).

Definition tag_options (df : list row) : list string :=
  sorted (unique (map Tag df)).

(** [Series.isin(values)] on one cell; NaN is in no list of strings. *)
Definition isin (values : list string) (cell : option string) : Prop :=
  match cell with
  | Some v => v ∈ values
  | None => False
  end.

#[export] Instance isin_dec values cell : Decision (isin values cell).
Proof. destruct cell; simpl; apply _. Defined.

Definition algo_df (df : list row) (ui : sidebar) : list row :=
  let algo_df := filter (λ r, Tag r ∈ selected_tags ui) df in
  if decide (selected_algorithm ui ≠ "All algorithms")
  then filter (λ r, Algorithm r = selected_algorithm ui) algo_df
  else algo_df.

Definition available_subtags (algo_df : list row) : list string :=
  unique (dropna (map Subtag algo_df)).

(** [filtered], after the four filters.  The result is [None] exactly when
    the search text is a pattern outside the fragment of [str_contains]. *)
Definition filtered (df : list row) (ui : sidebar) : option (list row) :=
  let filtered :=
    filter (λ r, isin (selected_subtags ui) (Subtag r)) (algo_df df ui) in
  if decide (video_search ui = "") then Some filtered
  else
    contains ← str_contains (video_search ui);
    Some (filter (λ r, contains (Video r) = true) filtered).

(** The selections the widgets can return: [selectbox] one of its options,
    [multiselect] some of its options. *)
Definition widget_state (df : list row) (ui : sidebar) : Prop :=
  selected_algorithm ui ∈ algorithm_options df ∧
  selected_tags ui ⊆ tag_options df ∧
  selected_subtags ui ⊆ available_subtags (algo_df df ui).

(* ===================================================================== *)
(** * Orders with NaN last, and [sort_values] *)
(* ===================================================================== *)

(** [sort_values] is ascending with [na_position="last"]. *)
Definition nan_last {A : Type} (le : relation A) : relation (option A) :=
  λ x y,
    match x, y with
    | Some a, Some b => le a b
    | _, None => True
    | None, Some _ => False
    end.

#[export] Instance nan_last_dec {A : Type} (le : relation A)
  `{!RelDecision le} : RelDecision (nan_last le).
Proof. intros [a|] [b|]; simpl; apply _. Defined.

(** Ordering of rows by a key. *)
Definition by_key {A K : Type} (le : relation K) (key : A → K)
  : relation A :=
  λ x y, le (key x) (key y).

#[export] Instance by_key_dec {A K : Type} (le : relation K) (key : A → K)
  `{!RelDecision le} : RelDecision (by_key le key).
Proof. intros x y; unfold by_key; apply _. Defined.

(** Lexicographic ordering: [R1] first, [R2] among the rows [R1] ties. *)
Definition lex {A : Type} (R1 R2 : relation A) : relation A :=
  λ x y, (R1 x y ∧ ¬ R1 y x) ∨ (R1 x y ∧ R1 y x ∧ R2 x y).

#[export] Instance lex_dec {A : Type} (R1 R2 : relation A)
  `{!RelDecision R1, !RelDecision R2} : RelDecision (lex R1 R2).
Proof. intros x y; unfold lex; apply _. Defined.

(** [sort_values]: the rows in ascending order of the key; rows with equal
    keys are left in the order of a stable sort. *)
Definition sort_values {A : Type} (R : relation A) `{!RelDecision R}
  (l : list A) : list A :=
  merge_sort R l.

(* ===================================================================== *)
(** * Aggregation ([summary_df]) *)
(* ===================================================================== *)

Definition Qc_of_nat (n : nat) : Qc := Q2Qc (inject_Z (Z.of_nat n)).

Definition sum (xs : list Qc) : Qc := foldr Qcplus 0%Qc xs.

(** [Series.mean()], [skipna=True]: NaN when no value is left. *)
Definition mean (xs : list (option Qc)) : option Qc :=
  match dropna xs with
  | [] => None
  | v :: vs => Some (sum (v :: vs) / Qc_of_nat (length (v :: vs)))%Qc
  end.

(** [groupby("Algorithm")]: the group keys, sorted. *)
Definition group_keys (df : list row) : list string :=
  sorted (unique (map Algorithm df)).

(** The RMSE cells of the group of [algo]. *)
Definition group_RMSE (df : list row) (algo : string) : list (option Qc) :=
  map RMSE (filter (λ r, Algorithm r = algo) df).

(** [groupby("Algorithm")["RMSE"].mean().reset_index()] *)
Definition groupby_mean (df : list row) : list (string * option Qc) :=
  map (λ algo, (algo, mean (group_RMSE df algo))) (group_keys df).

Definition by_mean_RMSE : relation (string * option Qc) :=
  by_key (nan_last Qcle) snd.

Definition summary_df (filtered : list row) : list (string * option Qc) :=
  sort_values by_mean_RMSE (groupby_mean filtered).

(* ===================================================================== *)
(** * Ranges and extrema *)
(* ===================================================================== *)

Inductive metric : Type :=
  | mRMSE | mMean | mMedian | mStd | mMin | mMax.


(** [filtered[metric]] on one row. *)
Definition column (m : metric) (r : row) : option Qc :=
  match m with
  | mRMSE => RMSE r
  | mMean => Mean r
  | mMedian => Median r
  | mStd => Std r
  | mMin => Min r
  | mMax => Max r
  end.

Definition Qc_max (a b : Qc) : Qc := if decide (a ≤ b)%Qc then b else a.
Definition Qc_min (a b : Qc) : Qc := if decide (a ≤ b)%Qc then a else b.

(** [Series.max()] and [Series.min()], [skipna=True]: NaN on a series with
    no value. *)
Definition series_max (xs : list (option Qc)) : option Qc :=
  match dropna xs with
  | [] => None
  | v :: vs => Some (foldr Qc_max v vs)
  end.

Definition series_min (xs : list (option Qc)) : option Qc :=
  match dropna xs with
  | [] => None
  | v :: vs => Some (foldr Qc_min v vs)
  end.

(** [DataFrame.empty] *)
Definition empty (df : list row) : bool :=
  match df with
  | [] => true
  | _ => false
  end.

(** [range_y=(0, filtered[metric].max() * 1.1 if not filtered.empty else None)]:
    the upper end is Python's [None] (outer [None]) on an empty frame, and
    otherwise a float, possibly NaN (inner [None]). *)
Definition range_y (filtered : list row) (m : metric)
  : Qc * option (option Qc) :=
  (0%Qc,
   if negb (empty filtered)
   then Some ((λ x, x * Q2Qc (11 # 10))%Qc <$> series_max (map (column m) filtered))
   else None).

Definition rmse_max (filtered : list row) : option Qc :=
  series_max (map RMSE filtered).

Definition rmse_min (filtered : list row) : option Qc :=
  series_min (map RMSE filtered).

(* ===================================================================== *)
(** * Subtag-ordered views *)
(* ===================================================================== *)

Fixpoint index_of (v : string) (l : list string) : option nat :=
  match l with
  | [] => None
  | x :: t => if decide (v = x) then Some 0%nat else S <$> index_of v t
  end.

(** [subtag_order_map = {v: i for i, v in enumerate(subtag_order)}], read
    with [Series.map]: NaN where the key is absent. *)
Definition subtag_order_map (v : string) : option nat :=
  index_of v subtag_order.

Definition SubtagOrder (r : row) : option nat :=
  Subtag r ≫= subtag_order_map.



(** [sort_values(by=["Algorithm", "Tag", "Video", "SubtagOrder"])] *)
Definition by_sorted_df_keys : relation row :=
  lex (by_key String.le Algorithm)
    (lex (by_key String.le Tag)
       (lex (by_key String.le Video)
          (by_key (nan_last le) SubtagOrder))).

Definition sorted_df (filtered : list row) : list row :=
  sort_values by_sorted_df_keys filtered.

(* ===================================================================== *)
(** * Preview resolution ([get_preview_image]) *)
(* ===================================================================== *)

(** [posixpath.join] of two components. *)
Definition os_path_join (a b : string) : string :=
  if String.prefix "/" b then b
  else if decide (a = "") then b
  else if String.prefix "/" (String.rev a) then a ++ b
  else a ++ "/" ++ b.

(** The paths that exist. *)
Abbreviation filesystem := (gset string).

Definition os_path_exists (fs : filesystem) (p : string) : bool :=
  bool_decide (p ∈ fs).

(** The function reads the file system and returns it as it found it. *)
Definition get_preview_image (pdf_file : string) (fs : filesystem)
  : option string * filesystem :=
  let img_file := pdf_file ++ ".png" in
  let img_path := os_path_join "plots_previews" img_file in
  if os_path_exists fs img_path then (Some img_path, fs) else (None, fs).

(* ===================================================================== *)
(** * The offline converter ([convert_pdfs_to_pngs.py]) *)
(* ===================================================================== *)

Definition ends_with (suffix s : string) : bool :=
  String.prefix (String.rev suffix) (String.rev s).

(** [pathlib]'s [dir / name], as a string. *)
Definition path_div (dir name : string) : string :=
  if String.prefix "/" name then name else dir ++ "/" ++ name.

Definition pdf_dir : string := "plots".
Definition output_dir : string := "plots_previews".

(** [output_dir / (pdf_file.name + ".png")] *)
Definition output_path (name : string) : string :=
  path_div output_dir (name ++ ".png").

(** [pdf_dir.glob("*.pdf")] over the names found in the directory. *)
Definition glob_pdf (listing : list string) : list string :=
  filter (λ name, ends_with ".pdf" name = true) listing.

(** A directory entry: a name, not a path. *)
Definition filename (name : string) : Prop :=
  name ≠ "" ∧ str_in "/" name = false.

Inductive message : Type :=
  | Converted (name out_name : string)
  | NoImages (name : string)
  | Failed (name : string) (e : exn).

Section Converter.
(** The rasterizer of [pdf2image] is a collaborator: what it returns for
    a path, a resolution and a page range is a parameter. *)
Context {image : Type}.
Variable convert_from_path : string → Z → Z → Z → result (list image).

Record world : Type := mkWorld {
  files : gmap string image;
  stdout : list message
}.

Definition print (m : message) (w : world) : world :=
  mkWorld (files w) (stdout w ++ [m]).

Definition save (img : image) (path : string) (w : world) : world :=
  mkWorld (<[path := img]> (files w)) (stdout w).

(** The body of the loop, with its [try]/[except]. *)
Definition convert_one (name : string) (w : world) : world :=
  match convert_from_path (path_div pdf_dir name) 150 1 1 with
  | Ok (img :: _) =>
      print (Converted name (name ++ ".png"))
        (save img (output_path name) w)
  | Ok [] => print (NoImages name) w
  | Raise e => print (Failed name e) w
  end.

Definition convert_all (listing : list string) (w : world) : world :=
  foldl (λ w name, convert_one name w) w (glob_pdf listing).
End Converter.

Arguments mkWorld {image}.
Arguments files {image} w.
Arguments stdout {image} w.

(* ===================================================================== *)
(** * Specification-side reading of record extraction *)
(* ===================================================================== *)

(** The value of a field, or [default] when the entry has no such field. *)
Definition field (d : dict) (k : string) (default : pyval) : pyval :=
  match dict_lookup k d with
  | Some v => v
  | None => default
  end.

(** The text of a field that is a string or is missing. *)
Definition str_field (d : dict) (k : string) : option string :=
  cell_str (field d k (PyStr "")).

(** An entry the loop is written for: an object whose [algorithm],
    [algorithm_relative_folder] and [plot_path] are strings when present. *)
Definition well_typed (entry : pyval) : Prop :=
  match entry with
  | PyDict d =>
      is_Some (str_field d "algorithm") ∧
      is_Some (str_field d "algorithm_relative_folder") ∧
      is_Some (str_field d "plot_path")
  | _ => False
  end.

(** The record the specification describes for one entry: none for a
    ground-truth algorithm, none for fewer than two path segments, else the
    record made of the first two segments, the folder, the statistics
    present (no value for the others) and the basename of the plot path. *)
Definition spec_record (entry : pyval) : option raw_record :=
  match entry with
  | PyDict d =>
      let algo := default "" (str_field d "algorithm") in
      let parts :=
        split "/" (default "" (str_field d "algorithm_relative_folder")) in
      if str_in "groundTruth" algo then None
      else if (length parts <? 2)%nat then None
      else
        Some {| Algorithm := PyStr algo;
                Tag := nth 0 parts "";
                Subtag := nth 1 parts "";
                Video := field d "folder" (PyStr "");
                RMSE := field d "rmse" PyNone;
                Mean := field d "mean" PyNone;
                Median := field d "median" PyNone;
                Std := field d "std" PyNone;
                Min := field d "min" PyNone;
                Max := field d "max" PyNone;
                Plot_PDF := basename (default "" (str_field d "plot_path")) |}
  | _ => None
  end.

(* ===================================================================== *)
(** * Specification-side reading of the filters *)
(* ===================================================================== *)

(** [s] contains [search], letter case ignored. *)
Definition contains_ci (search s : string) : bool :=
  str_in (lower_str search) (lower_str s).

(** A search string with no character that is special in a regular
    expression. *)
Definition literal (pat : string) : Prop :=
  Forall (λ c, c ∉ re_special) (list_ascii_of_string pat).

#[export] Instance literal_dec pat : Decision (literal pat).
Proof. unfold literal; apply _. Defined.

(** The four conditions of the filter contract on one record. *)
Definition tag_selected (ui : sidebar) (r : typed_record) : Prop :=
  Tag r ∈ selected_tags ui.

Definition algorithm_selected (ui : sidebar) (r : typed_record) : Prop :=
  selected_algorithm ui = "All algorithms" ∨
  Algorithm r = selected_algorithm ui.

Definition subtag_selected (ui : sidebar) (r : typed_record) : Prop :=
  Subtag r ∈ selected_subtags ui.

Definition video_matches (ui : sidebar) (r : typed_record) : Prop :=
  contains_ci (video_search ui) (Video r) = true.

Definition selected (ui : sidebar) (r : typed_record) : Prop :=
  tag_selected ui r ∧ algorithm_selected ui r ∧
  subtag_selected ui r ∧ video_matches ui r.

#[export] Instance tag_selected_dec ui r : Decision (tag_selected ui r).
Proof. unfold tag_selected; apply _. Defined.
#[export] Instance algorithm_selected_dec ui r :
  Decision (algorithm_selected ui r).
Proof. unfold algorithm_selected; apply _. Defined.
#[export] Instance subtag_selected_dec ui r : Decision (subtag_selected ui r).
Proof. unfold subtag_selected; apply _. Defined.
#[export] Instance video_matches_dec ui r : Decision (video_matches ui r).
Proof. unfold video_matches; apply _. Defined.
#[export] Instance selected_dec ui r : Decision (selected ui r).
Proof. unfold selected; apply _. Defined.


(** Records used as examples. *)
Definition spec_example : pyval :=
  PyDict [("algorithm", PyStr "ALG1");
          ("algorithm_relative_folder", PyStr "NWC/mp4_low/x");
          ("folder", PyStr "vid1");
          ("rmse", PyFloat (Q2Qc (3 # 2)))].

Definition alg1_low : typed_record :=
  mkRecord "ALG1" "NWC" "mp4_low" "Vid1"
    (Some (Q2Qc (3 # 2))) None None None None None "a.pdf".

Definition alg2_high : typed_record :=
  mkRecord "ALG2" "NWC" "mp4_high" "abc"
    (Some (Q2Qc (1 # 2))) None None None None None "b.pdf".

Definition alg1_ultra : typed_record :=
  mkRecord "ALG1" "SITE" "mp4_ultra" "vid3"
    None None None None None None "c.pdf".

(* ===================================================================== *)
(** * Specification-side reading of the aggregation *)
(* ===================================================================== *)

(** The arithmetic mean of the values present: their sum over their
    number, and no value when there is none. *)
Definition arithmetic_mean (values : list Qc) : option Qc :=
  match values with
  | [] => None
  | _ => Some (sum values / Qc_of_nat (length values))%Qc
  end.

(** The RMSE values of the records of one algorithm, nulls left out. *)
Definition RMSE_values (df : list row) (algo : string) : list Qc :=
  dropna (RMSE <$> filter (λ r, Algorithm r = algo) df).

Definition has_RMSE (r : row) : Prop := is_Some (RMSE r).

#[export] Instance has_RMSE_dec r : Decision (has_RMSE r).
Proof. unfold has_RMSE; apply _. Defined.

(* ===================================================================== *)
(** * Specification-side reading of the subtag order *)
(* ===================================================================== *)

(** A row whose secondary tag is one of the five recognised values. *)
Definition recognised (r : row) : Prop :=
  ∃ s, Subtag r = Some s ∧ s ∈ subtag_order.


(** The same, among the rows of one algorithm, jobsite and video. *)
Definition unrecognised_last_in_group (view : list row) : Prop :=
  ∀ i j r1 r2,
    view !! i = Some r1 → view !! j = Some r2 →
    Algorithm r1 = Algorithm r2 → Tag r1 = Tag r2 → Video r1 = Video r2 →
    ¬ recognised r1 → recognised r2 → (j < i)%nat.


(* ===================================================================== *)
(** * Specification-side reading of previews and of the converter *)
(* ===================================================================== *)

(** The preview of a plot file: its name with ".png" appended, inside
    plots_previews. *)
Definition preview_path (plot_file : string) : string :=
  "plots_previews/" ++ plot_file ++ ".png".

(** What the rasterizer gives for a source file: the first image when there
    is one. *)
Definition first_page {image : Type}
    (convert_from_path : string → Z → Z → Z → result (list image))
    (name : string) : option image :=
  match convert_from_path (path_div pdf_dir name) 150%Z 1%Z 1%Z with
  | Ok (img :: _) => Some img
  | _ => None
  end.

(** A rasterizer used as an example: it fails on "bad.pdf", finds no page
    in "empty.pdf" and returns the name of any other file as its image. *)
Definition example_rasterizer (path : string) (dpi first last : Z)
  : result (list string) :=
  if decide (path = "plots/bad.pdf") then Raise ConversionError
  else if decide (path = "plots/empty.pdf") then Ok []
  else Ok [path].

(** The effect of one iteration of the converter on the files. *)
Definition write_png {image : Type}
    (convert_from_path : string → Z → Z → Z → result (list image))
    (name : string) (m : gmap string image) : gmap string image :=
  match first_page convert_from_path name with
  | Some img => <[output_path name := img]> m
  | None => m
  end.

(* ===================================================================== *)
(** * Further readings of record extraction *)
(* ===================================================================== *)

(** The entries one iteration of the loop accepts: an object whose
    [algorithm] can be searched, and which either is a ground-truth entry
    or has a text (or no) relative folder and plot path. *)
Definition accepted (entry : pyval) : Prop :=
  match entry with
  | PyDict d =>
      match py_in "groundTruth" (field d "algorithm" (PyStr "")) with
      | Ok true => True
      | Ok false =>
          is_Some (str_field d "algorithm_relative_folder") ∧
          is_Some (str_field d "plot_path")
      | Raise _ => False
      end
  | _ => False
  end.

(** The record an iteration appends, if any. *)
Definition entry_record (entry : pyval) : option raw_record :=
  match extract_entry entry with
  | Ok o => o
  | Raise _ => None
  end.

(** A text without a slash. *)
Definition no_slash (s : string) : Prop := str_in "/" s = false.

(** Entries used as examples. *)
Definition ground_truth_entry : pyval :=
  PyDict [("algorithm", PyStr "NWC_groundTruth"); ("plot_path", PyInt 7)].

Definition null_algorithm_entry : pyval :=
  PyDict [("algorithm", PyNone)].

(* ===================================================================== *)
(** * Further readings of the sidebar filters *)
(* ===================================================================== *)

(** The test the four filters apply to one row, [contains] being the
    compiled search (or the constant [true] when there is no search). *)
Definition keeps (ui : sidebar) (contains : string → bool) (r : row)
  : Prop :=
  Tag r ∈ selected_tags ui ∧
  (selected_algorithm ui = "All algorithms" ∨
   Algorithm r = selected_algorithm ui) ∧
  isin (selected_subtags ui) (Subtag r) ∧
  contains (Video r) = true.

#[export] Instance keeps_dec ui contains r : Decision (keeps ui contains r).
Proof. unfold keeps; apply _. Defined.

(** The compiled search of a selection, when the model has one. *)
Definition compiled_search (ui : sidebar) : option (string → bool) :=
  if decide (video_search ui = "") then Some (λ _, true)
  else str_contains (video_search ui).

(* ===================================================================== *)
(** * Highlighting of the extreme RMSE values ([highlight_rmse]) *)
(* ===================================================================== *)

(** A cell of the frame, as [Styler.map] hands it to the function. *)
Inductive cell : Type :=
  | Text (s : string)
  | Category (c : option string)
  | Number (x : option Qc).

(** [val == x] for a float [x]: a text or a category is never equal to a
    number, and NaN is equal to nothing. *)
Definition cell_eq_float (val : cell) (x : option Qc) : bool :=
  match val, x with
  | Number (Some v), Some y => bool_decide (v = y)
  | _, _ => false
  end.

(** [rmse_min] and [rmse_max] are the globals the function reads. *)
Definition highlight_rmse (rmse_min rmse_max : option Qc) (val : cell)
  : string :=
  if cell_eq_float val rmse_min then "background-color: yellow"
  else if cell_eq_float val rmse_max then "background-color: orange"
  else "".



(* ===================================================================== *)
(** * The table with previews ([display_df], [preview_df], the grid) *)
(* ===================================================================== *)

(** [sorted_df["Preview"] = sorted_df["Plot PDF"].apply(get_preview_image)]:
    the rows with their preview, the file system being consulted once for
    each row. *)
Fixpoint add_Preview (sorted_df : list row) (fs : filesystem)
  : list (row * option string) * filesystem :=
  match sorted_df with
  | [] => ([], fs)
  | r :: rest =>
      let '(img, fs1) := get_preview_image (Plot_PDF r) fs in
      let '(rows, fs2) := add_Preview rest fs1 in
      ((r, img) :: rows, fs2)
  end.

(** The rows of [display_df]: the Plot PDF column is dropped, the Preview
    column is kept. *)
Module Display.
Record row : Type := mk {
  Algorithm : string;
  Tag : string;
  Subtag : option string;
  Video : string;
  RMSE : option Qc;
  Mean : option Qc;
  Median : option Qc;
  Std : option Qc;
  Min : option Qc;
  Max : option Qc;
  Preview : option string
}.
End Display.

Definition drop_Plot_PDF (rp : row * option string) : Display.row :=
  let '(r, img) := rp in
  Display.mk (Algorithm r) (Tag r) (Subtag r) (Video r)
    (RMSE r) (Mean r) (Median r) (Std r) (Min r) (Max r) img.

Definition display_df (sorted_df : list row) (fs : filesystem)
  : list Display.row * filesystem :=
  let '(rows, fs') := add_Preview sorted_df fs in
  (drop_Plot_PDF <$> rows, fs').


(** What the script puts in a column of the grid for one row. *)
Inductive element (image : Type) : Type :=
  | Markdown_info (algorithm video : string) (subtag : option string)
  | St_image (img : image)
  | Markdown_RMSE (rmse : option Qc) (tag : string)
  | Download_button (file_name img_path : string)
  | St_write (text : string)
  | Separator.

Arguments Markdown_info {image}.
Arguments St_image {image}.
Arguments Markdown_RMSE {image}.
Arguments Download_button {image}.
Arguments St_write {image}.
Arguments Separator {image}.

Section Grid.
(** [Image.open] is a collaborator: what it returns for a path is a
    parameter. *)
Context {image : Type}.
Variable Image_open : string → result image.

(** The body of the loop over [preview_df.iterrows()], for one row. *)
Definition render_row (fs : filesystem) (d : Display.row)
  : list (element image) :=
  ([Markdown_info (Display.Algorithm d) (Display.Video d)
      (Display.Subtag d)]
  ++ match Display.Preview d with
     | Some img_path =>
         if bool_decide (img_path ≠ "") && os_path_exists fs img_path
         then match Image_open img_path with
              | Ok img =>
                  [St_image img;
                   Markdown_RMSE (Display.RMSE d) (Display.Tag d);
                   Download_button (basename img_path) img_path]
              | Raise _ => [St_write "Image preview not available"]
              end
         else [St_write "No Preview"]
     | None => [St_write "No Preview"]
     end
  ++ [Separator])%list.
End Grid.

(** [col_idx = i % 3] *)
Definition col_idx (i : nat) : nat := i mod 3.

(** The loop over [enumerate(...)]: block [i] goes at the end of column
    [i % 3]. *)
Fixpoint place_from {A : Type} (i : nat) (blocks : list A)
    (columns : list (list A)) : list (list A) :=
  match blocks with
  | [] => columns
  | b :: rest =>
      place_from (S i) rest
        (alter (λ c, (c ++ [b])%list) (col_idx i) columns)
  end.

(** [columns = st.columns(3)], then the loop. *)
Definition place {A : Type} (blocks : list A) : list (list A) :=
  place_from 0 blocks [[]; []; []].

(** The order of the table: by Algorithm, then Tag, then Video, then the
    position of the Subtag, NaN last. *)
Definition in_table_order (r1 r2 : row) : Prop :=
  String.le (Algorithm r1) (Algorithm r2) ∧
  (Algorithm r1 = Algorithm r2 →
   String.le (Tag r1) (Tag r2) ∧
   (Tag r1 = Tag r2 →
    String.le (Video r1) (Video r2) ∧
    (Video r1 = Video r2 →
     nan_last le (SubtagOrder r1) (SubtagOrder r2)))).


(* ===================================================================== *)
(** * The archive of the plots ([zip_plots_directory]) *)
(* ===================================================================== *)

(** ** [posixpath]: [join], [normpath], [abspath], [relpath] *)

(** [os.path.join(a, *p)] *)
Fixpoint join_all (a : string) (p : list string) : string :=
  match p with
  | [] => a
  | b :: p' => join_all (os_path_join a b) p'
  end.

(** [sep.join(l)] *)
Fixpoint sep_join (sep : string) (l : list string) : string :=
  match l with
  | [] => ""
  | [a] => a
  | a :: l' => a ++ sep ++ sep_join sep l'
  end.

(** POSIX keeps two leading slashes, and reads three or more as one. *)
Definition initial_slashes (path : string) : nat :=
  if String.prefix "/" path
  then if String.prefix "//" path && negb (String.prefix "///" path)
       then 2
       else 1
  else 0.

(** The loop of [normpath] over the components. *)
Fixpoint normpath_loop (slashes : nat) (comps new_comps : list string)
  : list string :=
  match comps with
  | [] => new_comps
  | comp :: rest =>
      if bool_decide (comp = "" ∨ comp = ".")
      then normpath_loop slashes rest new_comps
      else if bool_decide (comp ≠ "..") ||
              (bool_decide (slashes = 0%nat) &&
               bool_decide (new_comps = [])) ||
              (bool_decide (new_comps ≠ []) &&
               bool_decide (last new_comps = Some ".."))
      then normpath_loop slashes rest (new_comps ++ [comp])%list
      else if bool_decide (new_comps ≠ [])
      then normpath_loop slashes rest (removelast new_comps)
      else normpath_loop slashes rest new_comps
  end.

Fixpoint slashes_string (n : nat) : string :=
  match n with
  | O => ""
  | S n' => String "/" (slashes_string n')
  end.

Definition normpath (path : string) : string :=
  if decide (path = "") then "."
  else
    let slashes := initial_slashes path in
    let new_comps := normpath_loop slashes (split "/" path) [] in
    let path := slashes_string slashes ++ sep_join "/" new_comps in
    if decide (path = "") then "." else path.

(** [os.path.abspath], the working directory being [cwd]. *)
Definition abspath (cwd path : string) : string :=
  normpath (if String.prefix "/" path then path else os_path_join cwd path).

(** [os.path.commonprefix] of two lists. *)
Fixpoint common_prefix (l1 l2 : list string) : list string :=
  match l1, l2 with
  | x :: l1', y :: l2' =>
      if decide (x = y) then x :: common_prefix l1' l2' else []
  | _, _ => []
  end.

(** The non-empty components of a path. *)
Definition components (path : string) : list string :=
  filter (λ x, x ≠ "") (split "/" path).

(** [os.path.relpath(path, start)]; [None] is the [ValueError] raised for
    an empty [path]. *)
Definition relpath (cwd path start : string) : option string :=
  if decide (path = "") then None
  else
    let start_list := components (abspath cwd start) in
    let path_list := components (abspath cwd path) in
    let i := length (common_prefix start_list path_list) in
    let rel_list :=
      (replicate (length start_list - i) ".." ++ drop i path_list)%list in
    match rel_list with
    | [] => Some "."
    | a :: p => Some (join_all a p)
    end.

(** ** The directory tree and [os.walk] *)

(** What is found at a path: a file, or a directory with its entries in
    the order [os.scandir] lists them.  There are no symbolic links. *)
Inductive node : Type :=
  | File
  | Folder (entries : list (string * node)).

Definition is_dir (n : node) : bool :=
  match n with
  | Folder _ => true
  | File => false
  end.

(** The names of the sub-directories and of the other entries. *)
Definition dirs_of (entries : list (string * node)) : list string :=
  fst <$> filter (λ e, is_dir e.2 = true) entries.

Definition nondirs_of (entries : list (string * node)) : list string :=
  fst <$> filter (λ e, is_dir e.2 = false) entries.

(** [os.walk(top)], top down: the triple of a directory, then the walks
    of its sub-directories.  A [top] that cannot be scanned yields
    nothing. *)
Fixpoint walk (top : string) (n : node)
  : list (string * list string * list string) :=
  match n with
  | File => []
  | Folder entries =>
      (top, dirs_of entries, nondirs_of entries)
      :: (fix walk_dirs (es : list (string * node))
            : list (string * list string * list string) :=
            match es with
            | [] => []
            | (name, child) :: es' =>
                ((if is_dir child
                  then walk (os_path_join top name) child
                  else [])
                 ++ walk_dirs es')%list
            end) entries
  end.

(** ** [ZipFile.write] and the function *)

(** [while arcname[0] in (os.sep, os.altsep): arcname = arcname[1:]];
    [None] is the [IndexError] of a name that is used up. *)
Fixpoint lstrip_slash (s : string) : option string :=
  match s with
  | String c t => if Ascii.eqb c "/" then lstrip_slash t else Some s
  | EmptyString => None
  end.

(** The name [ZipInfo.from_file] stores for an [arcname]. *)
Definition zip_arcname (arcname : string) : option string :=
  lstrip_slash (normpath arcname).

(** The archive: for each member the file it was read from and the name
    it is stored under; [None] when a call raises.  [tree] is what is
    found at [directory], if anything. *)
Definition zip_plots_directory (cwd directory : string)
    (tree : option node) : option (list (string * string)) :=
  mapM (λ '(root, file),
          let file_path := os_path_join root file in
          arcname ← relpath cwd file_path directory;
          name ← zip_arcname arcname;
          Some (file_path, name))
    ('(root, _, files) ← from_option (walk directory) [] tree;
     (λ file, (root, file)) <$> files).

(** What the button "Download All PDF Plots" leads to. *)
Inductive download_all : Type :=
  | Download_ZIP (members : list (string * string))
  | Warning_no_plots
  | Scandir_error
  | Archive_error.

(** [if os.path.exists("plots") and any(os.scandir("plots"))]: scanning a
    path that is not a directory raises. *)
Definition download_all_plots (cwd : string) (plots : option node)
  : download_all :=
  match plots with
  | None => Warning_no_plots
  | Some File => Scandir_error
  | Some (Folder []) => Warning_no_plots
  | Some (Folder (_ :: _)) =>
      match zip_plots_directory cwd "plots" plots with
      | Some members => Download_ZIP members
      | None => Archive_error
      end
  end.

(** ** Specification-side reading *)

(** A name a directory entry can have. *)
Definition proper_name (s : string) : Prop :=
  s ≠ "" ∧ no_slash s ∧ s ≠ "." ∧ s ≠ "..".

#[export] Instance proper_name_dec s : Decision (proper_name s).
Proof. unfold proper_name, no_slash; apply _. Defined.

(** A tree all of whose entries have such names. *)
Fixpoint proper_tree (n : node) : Prop :=
  match n with
  | File => True
  | Folder entries =>
      (fix all (es : list (string * node)) : Prop :=
         match es with
         | [] => True
         | (name, child) :: es' =>
             proper_name name ∧ proper_tree child ∧ all es'
         end) entries
  end.

(** The files below a directory, each as the list of the names that lead
    to it, in the order of the walk. *)
Fixpoint files_of (n : node) : list (list string) :=
  match n with
  | File => []
  | Folder entries =>
      (((λ name, [name]) <$> nondirs_of entries)
       ++ (fix files_dirs (es : list (string * node))
             : list (list string) :=
             match es with
             | [] => []
             | (name, child) :: es' =>
                 ((if is_dir child
                   then (λ sub, name :: sub) <$> files_of child
                   else [])
                  ++ files_dirs es')%list
             end) entries)%list
  end.

(** A tree used as an example. *)
Definition example_plots : node :=
  Folder [("a.pdf", File);
          ("run1", Folder [("b.pdf", File); ("empty", Folder [])]);
          ("c.pdf", File)].

(** The member written for the file reached by the names [sub] below the
    directory [ds]: the path read and the name stored. *)
Definition zip_member (ds sub : list string) : string * string :=
  (sep_join "/" (ds ++ sub), sep_join "/" sub).

(** A tree in which no directory holds two entries of one name. *)
Fixpoint distinct_names (n : node) : Prop :=
  match n with
  | File => True
  | Folder entries =>
      NoDup (fst <$> entries) ∧
      (fix all (es : list (string * node)) : Prop :=
         match es with
         | [] => True
         | (_, child) :: es' => distinct_names child ∧ all es'
         end) entries
  end.

(** A working directory used as an example. *)
Definition example_cwd : list string := ["home"; "user"; "app"].

(* ===================================================================== *)
(** * Theorems *)
(* ===================================================================== *)


Lemma py_get_dict (d : dict) (k : string) (v : pyval) :
  py_get (PyDict d) k v = Ok (field d k v).
Proof. unfold py_get, field. by destruct (dict_lookup k d). Qed.

Lemma str_field_Some (d : dict) (k s : string) :
  str_field d k = Some s → field d k (PyStr "") = PyStr s.
Proof.
  unfold str_field. destruct (field d k (PyStr "")); simpl; congruence.
Qed.

Lemma extract_entry_well_typed (entry : pyval) :
  well_typed entry → extract_entry entry = Ok (spec_record entry).
Proof.
  destruct entry as [| | | | |l|d]; simpl; try done.
  intros ([algo Ha] & [rel Hr] & [plot Hp]).
  unfold extract_entry. rewrite !py_get_dict. rewrite Ha, Hr, Hp. simpl.
  rewrite (str_field_Some _ _ _ Ha), (str_field_Some _ _ _ Hr),
    (str_field_Some _ _ _ Hp). simpl.
  destruct (str_in "groundTruth" algo); [done|].
  destruct (split "/" rel) as [|t1 [|t2 ts]]; done.
Qed.

Lemma extract_loop_well_typed (data : list pyval) (records : list raw_record) :
  Forall well_typed data →
  extract_loop data records = Ok (records ++ omap spec_record data)%list.
Proof.
  intros H. revert records.
  induction H as [|entry data He _ IH]; intros records; simpl.
  - by rewrite app_nil_r.
  - rewrite (extract_entry_well_typed _ He). simpl. rewrite IH.
    destruct (spec_record entry); [by rewrite <- app_assoc | done].
Qed.

(** C1, as amended.  Every entry of the JSON array that is an object whose
    [algorithm], [algorithm_relative_folder] and [plot_path] fields are
    strings or missing yields no record when its algorithm contains
    "groundTruth" or its relative folder has fewer than two segments, and
    otherwise exactly one record: Tag and Subtag are the first two segments,
    Video is the folder field, the plot reference is the basename of the
    plot path, and a missing statistic is [None]; the loop raises nothing
    and keeps the order of the entries. *)
Theorem extract_well_typed (data : list pyval) :
  Forall well_typed data →
  extract data = Ok (omap spec_record data).
Proof. intros H. unfold extract. by rewrite extract_loop_well_typed. Qed.

Lemma extract_well_typed_witness :
  Forall well_typed
    [spec_example;
     PyDict [("algorithm", PyStr "NWC_groundTruth")];
     PyDict [("algorithm", PyStr "ALG2");
             ("algorithm_relative_folder", PyStr "NWC")]] ∧
  extract
    [spec_example;
     PyDict [("algorithm", PyStr "NWC_groundTruth")];
     PyDict [("algorithm", PyStr "ALG2");
             ("algorithm_relative_folder", PyStr "NWC")]]
  = Ok [mkRecord (PyStr "ALG1") "NWC" "mp4_low" (PyStr "vid1")
          (PyFloat (Q2Qc (3 # 2))) PyNone PyNone PyNone PyNone PyNone ""].
Proof.
  assert (Forall well_typed
    [spec_example;
     PyDict [("algorithm", PyStr "NWC_groundTruth")];
     PyDict [("algorithm", PyStr "ALG2");
             ("algorithm_relative_folder", PyStr "NWC")]]) as H.
  { repeat constructor; simpl; eauto. }
  split; [exact H|].
  rewrite (extract_well_typed _ H). reflexivity.
Defined.

(** C1, as stated, fails: an entry whose [algorithm] is [null] makes
    ["groundTruth" in algo] raise [TypeError], and the loop stops. *)
Lemma extract_null_algorithm_raises :
  extract [PyDict [("algorithm", PyNone)]] = Raise TypeError.
Proof. reflexivity. Qed.

(** ** Lists: [filter], [unique], [sorted] *)


Lemma filter_iff_on {A : Type} (P Q : A → Prop)
    `{!∀ x, Decision (P x), !∀ x, Decision (Q x)} (l : list A) :
  (∀ x, x ∈ l → (P x ↔ Q x)) → filter P l = filter Q l.
Proof.
  induction l as [|x l IH]; intros Hl; [done|].
  rewrite !filter_cons, IH by (intros; apply Hl; by right).
  apply decide_ext, Hl. by left.
Qed.

Lemma filter_all {A : Type} (P : A → Prop) `{!∀ x, Decision (P x)}
    (l : list A) :
  (∀ x, x ∈ l → P x) → filter P l = l.
Proof.
  induction l as [|x l IH]; intros Hl; [done|].
  rewrite filter_cons_True by (apply Hl; by left).
  rewrite IH; [done|]. intros; apply Hl; by right.
Qed.

Lemma filter_none {A : Type} (P : A → Prop) `{!∀ x, Decision (P x)}
    (l : list A) :
  (∀ x, ¬ P x) → filter P l = [].
Proof.
  intros Hl. induction l as [|x l IH]; [done|].
  by rewrite filter_cons_False.
Qed.

Lemma elem_of_unique_from (seen l : list string) (x : string) :
  x ∈ unique_from seen l ↔ x ∈ l ∧ x ∉ seen.
Proof.
  revert seen. induction l as [|y l IH]; intros seen; simpl.
  - rewrite elem_of_nil. naive_solver.
  - destruct (decide (y ∈ seen)).
    + rewrite IH, elem_of_cons. naive_solver.
    + rewrite !elem_of_cons, IH, not_elem_of_cons.
      destruct (decide (x = y)) as [->|]; naive_solver.
Qed.

Lemma elem_of_unique (l : list string) (x : string) :
  x ∈ unique l ↔ x ∈ l.
Proof.
  unfold unique. rewrite elem_of_unique_from, elem_of_nil. naive_solver.
Qed.

Lemma NoDup_unique_from (seen l : list string) :
  NoDup (unique_from seen l).
Proof.
  revert seen. induction l as [|y l IH]; intros seen; simpl.
  - constructor.
  - destruct (decide (y ∈ seen)); [done|].
    constructor; [|done]. rewrite elem_of_unique_from, not_elem_of_cons.
    naive_solver.
Qed.

Lemma NoDup_unique (l : list string) : NoDup (unique l).
Proof. apply NoDup_unique_from. Qed.

Lemma elem_of_sorted (l : list string) (x : string) :
  x ∈ sorted l ↔ x ∈ l.
Proof. unfold sorted. by rewrite merge_sort_Permutation. Qed.

Lemma elem_of_dropna {A : Type} (l : list (option A)) (x : A) :
  x ∈ dropna l ↔ Some x ∈ l.
Proof.
  unfold dropna. rewrite list_elem_of_omap. split.
  - intros (y & Hy & Hx). simpl in Hx. by subst.
  - intros H. by exists (Some x).
Qed.

(** ** The regular-expression fragment on literal patterns *)

Lemma lower_str_string_of_list (cs : list ascii) :
  lower_str (string_of_list_ascii cs) = string_of_list_ascii (map lower cs).
Proof. induction cs as [|c cs IH]; simpl; [done|by rewrite IH]. Qed.

Lemma re_compile_literal (pat : string) :
  literal pat → re_compile pat = Some (map Lit (list_ascii_of_string pat)).
Proof.
  unfold literal. induction pat as [|c pat IH]; simpl; [done|].
  intros H. apply Forall_cons in H as [Hc Hpat]. rewrite (IH Hpat). simpl.
  destruct (Ascii.eqb_spec c ".") as [->|_].
  { exfalso. apply Hc. by apply (bool_decide_unpack _). }
  by rewrite decide_False.
Qed.

Lemma match_here_literal (cs : list ascii) (s : string) :
  match_here (map Lit cs) s
  = String.prefix (string_of_list_ascii (map lower cs)) (lower_str s).
Proof.
  revert s. induction cs as [|c cs IH]; intros [|x s]; simpl; try done.
  rewrite IH. destruct (ascii_dec (lower c) (lower x)) as [->|Hne].
  - by rewrite Ascii.eqb_refl.
  - by apply Ascii.eqb_neq in Hne as ->.
Qed.

Lemma re_search_literal (cs : list ascii) (s : string) :
  re_search (map Lit cs) s
  = str_in (string_of_list_ascii (map lower cs)) (lower_str s).
Proof.
  induction s as [|x s IH].
  - simpl. by rewrite match_here_literal.
  - cbn [re_search str_in lower_str]. rewrite IH, match_here_literal. done.
Qed.

Lemma str_contains_literal (pat : string) :
  literal pat →
  ∃ contains, str_contains pat = Some contains ∧
              ∀ s, contains s = contains_ci pat s.
Proof.
  intros H. unfold str_contains. rewrite (re_compile_literal _ H). simpl.
  eexists; split; [done|]. intros s. rewrite re_search_literal.
  unfold contains_ci.
  by rewrite <- lower_str_string_of_list, string_of_list_ascii_of_string.
Qed.


(** ** The filter pipeline *)

Lemma DataFrame_Ok (records : list typed_record) (df : list row) :
  DataFrame records = Ok df → df = categorical_row <$> records.
Proof. destruct records; simpl; intros Hdf; by simplify_eq. Qed.

Lemma Categorical_Some (s : string) :
  s ∈ subtag_order → Categorical subtag_order s = Some s.
Proof. intros H. unfold Categorical. by rewrite decide_True. Qed.










(** A subtag outside the categories, which the sidebar never offers,
    selects nothing: the cell of such a record is NaN. *)
Lemma filtered_unrecognised_subtag :
  filtered (categorical_row <$> [alg1_low; alg1_ultra])
    (mkSidebar "All algorithms" ["NWC"; "SITE"] ["mp4_ultra"] "")
  = Some [] ∧
  filter (selected (mkSidebar "All algorithms" ["NWC"; "SITE"]
                      ["mp4_ultra"] ""))
    [alg1_low; alg1_ultra]
  = [alg1_ultra].
Proof. split; reflexivity. Qed.

(** No frame is built from an empty record set: the script stops at the
    assignment to the Subtag column. *)
Lemma DataFrame_empty : DataFrame [] = Raise KeyError.
Proof. reflexivity. Qed.






(** ** Orders *)

#[export] Instance nan_last_total {A : Type} (le : relation A)
  `{!Total le} : Total (nan_last le).
Proof. intros [a|] [b|]; simpl; auto. Qed.

#[export] Instance nan_last_trans {A : Type} (le : relation A)
  `{!Transitive le} : Transitive (nan_last le).
Proof. intros [a|] [b|] [c|]; simpl; try done. apply transitivity. Qed.

#[export] Instance by_key_total {A K : Type} (le : relation K) (key : A → K)
  `{!Total le} : Total (by_key le key).
Proof. intros x y. apply (total le). Qed.

#[export] Instance by_key_trans {A K : Type} (le : relation K) (key : A → K)
  `{!Transitive le} : Transitive (by_key le key).
Proof. intros x y z. unfold by_key. apply transitivity. Qed.

Lemma sort_values_Permutation {A : Type} (R : relation A) `{!RelDecision R}
    (l : list A) :
  sort_values R l ≡ₚ l.
Proof. apply merge_sort_Permutation. Qed.

Lemma sort_values_StronglySorted {A : Type} (R : relation A)
    `{!RelDecision R, !Total R, !Transitive R} (l : list A) :
  StronglySorted R (sort_values R l).
Proof. apply StronglySorted_merge_sort; apply _. Qed.

(** ** Means *)

Lemma mean_arithmetic_mean (xs : list (option Qc)) :
  mean xs = arithmetic_mean (dropna xs).
Proof. unfold mean, arithmetic_mean. by destruct (dropna xs). Qed.




Lemma group_mean_spec (df : list row) (algo : string) :
  mean (group_RMSE df algo) = arithmetic_mean (RMSE_values df algo).
Proof. apply mean_arithmetic_mean. Qed.



(** ** Group keys *)




Lemma elem_of_group_keys (df : list row) (algo : string) :
  algo ∈ group_keys df ↔ ∃ r, r ∈ df ∧ Algorithm r = algo.
Proof.
  unfold group_keys. rewrite elem_of_sorted, elem_of_unique.
  rewrite list_elem_of_fmap. naive_solver.
Qed.

Lemma NoDup_group_keys (df : list row) : NoDup (group_keys df).
Proof.
  unfold group_keys, sorted. rewrite merge_sort_Permutation.
  apply NoDup_unique.
Qed.

Lemma groupby_mean_keys (df : list row) :
  (groupby_mean df).*1 = group_keys df.
Proof.
  unfold groupby_mean. rewrite <- list_fmap_compose.
  apply list_fmap_id.
Qed.


(** C4.  The summary has one row for each algorithm of the filtered set;
    the row of an algorithm carries the arithmetic mean of the RMSE values
    of its records, nulls left out (no value when none is left); the rows
    are in ascending order of that mean, those without a mean last. *)
Theorem summary_df_spec (filtered : list row) :
  NoDup (summary_df filtered).*1 ∧
  (∀ algo, algo ∈ (summary_df filtered).*1 ↔
           ∃ r, r ∈ filtered ∧ Algorithm r = algo) ∧
  (∀ algo m, (algo, m) ∈ summary_df filtered →
             m = arithmetic_mean (RMSE_values filtered algo)) ∧
  StronglySorted (λ x y, nan_last Qcle x.2 y.2) (summary_df filtered).
Proof.
  unfold summary_df.
  pose proof (sort_values_Permutation by_mean_RMSE (groupby_mean filtered))
    as Hperm.
  repeat split.
  - rewrite Hperm, groupby_mean_keys. apply NoDup_group_keys.
  - rewrite Hperm, groupby_mean_keys. apply elem_of_group_keys.
  - rewrite Hperm, groupby_mean_keys. apply elem_of_group_keys.
  - intros algo m. rewrite Hperm. unfold groupby_mean.
    rewrite list_elem_of_fmap. intros (a & [= -> ->] & _).
    apply group_mean_spec.
  - apply (sort_values_StronglySorted by_mean_RMSE).
Qed.

Lemma summary_df_spec_witness :
  summary_df (categorical_row <$> [alg1_low; alg2_high; alg1_ultra])
  = [("ALG2", Some (Q2Qc (1 # 2))); ("ALG1", Some (Q2Qc (3 # 2)))] ∧
  Some (Q2Qc (3 # 2))
  = arithmetic_mean
      (RMSE_values (categorical_row <$> [alg1_low; alg2_high; alg1_ultra])
         "ALG1").
Proof.
  split; [by vm_compute|].
  destruct (summary_df_spec
              (categorical_row <$> [alg1_low; alg2_high; alg1_ultra]))
    as (_ & _ & Hmean & _).
  apply Hmean. by apply (bool_decide_unpack _).
Defined.



(** ** Subtag-ordered views *)

Lemma StronglySorted_lookup {A : Type} (R : relation A) (l : list A)
    (i j : nat) (x y : A) :
  StronglySorted R l → l !! i = Some x → l !! j = Some y → (i < j)%nat →
  R x y.
Proof.
  intros Hl. revert i j. induction Hl as [|z l Hl IH Hz]; intros i j.
  - by rewrite lookup_nil.
  - destruct i as [|i], j as [|j]; simpl; try lia.
    + intros [= ->] Hy _. eapply Forall_forall in Hz; [done|].
      by eapply list_elem_of_lookup_2.
    + intros Hx Hy Hij. apply (IH i j); [done..|lia].
Qed.

Lemma index_of_is_Some (v : string) (l : list string) :
  is_Some (index_of v l) ↔ v ∈ l.
Proof.
  induction l as [|x l IH]; simpl.
  - rewrite elem_of_nil. split; [by intros [? ?]|done].
  - rewrite elem_of_cons. destruct (decide (v = x)) as [->|Hne].
    + split; [by left|by eexists].
    + rewrite fmap_is_Some, IH. naive_solver.
Qed.

Lemma recognised_SubtagOrder (r : row) :
  recognised r ↔ is_Some (SubtagOrder r).
Proof.
  unfold recognised, SubtagOrder, subtag_order_map.
  destruct (Subtag r) as [s|].
  - pose proof (index_of_is_Some s subtag_order) as Hs. split.
    + intros (s' & [= <-] & Hin). by apply Hs.
    + intros Hsome. exists s. split; [done|]. by apply Hs.
  - split; [by intros (? & ? & _)|by intros [? ?]].
Qed.









(** ** The table view: lexicographic order *)

#[export] Instance lex_total {A : Type} (R1 R2 : relation A)
  `{!RelDecision R1, !Total R1, !Total R2} : Total (lex R1 R2).
Proof.
  intros x y. unfold lex.
  destruct (decide (R1 x y)), (decide (R1 y x)),
    (total R1 x y), (total R2 x y); naive_solver.
Qed.

#[export] Instance lex_trans {A : Type} (R1 R2 : relation A)
  `{!Transitive R1, !Transitive R2} : Transitive (lex R1 R2).
Proof.
  intros x y z. unfold lex.
  intros [[Hxy Hnyx]|(Hxy & Hyx & H2xy)] [[Hyz Hnzy]|(Hyz & Hzy & H2yz)].
  - left. split; [by etrans|]. intros Hzx. apply Hnyx. by etrans.
  - left. split; [by etrans|]. intros Hzx. apply Hnyx. by etrans.
  - left. split; [by etrans|]. intros Hzx. apply Hnzy. by etrans.
  - right. repeat split; by etrans.
Qed.

Lemma lex_tie {A : Type} (R1 R2 : relation A) (x y : A) :
  R1 y x → lex R1 R2 x y → R2 x y.
Proof. intros Hyx [[_ Hn]|(_ & _ & H2)]; [by destruct Hn|done]. Qed.

Lemma sorted_df_StronglySorted (d : list row) :
  StronglySorted by_sorted_df_keys (sorted_df d).
Proof. apply (sort_values_StronglySorted by_sorted_df_keys). Qed.

Lemma sorted_df_unrecognised_last_in_group (d : list row) :
  unrecognised_last_in_group (sorted_df d).
Proof.
  intros i j r1 r2 H1 H2 Ha Ht Hv Hn1 Hr2.
  destruct (decide (j < i)%nat) as [|Hge]; [done|]. exfalso.
  destruct (decide (i = j)) as [->|Hne]; [by simplify_eq|].
  assert (by_sorted_df_keys r1 r2) as Hle.
  { eapply StronglySorted_lookup;
      [apply sorted_df_StronglySorted|done..|lia]. }
  unfold by_sorted_df_keys in Hle.
  apply lex_tie in Hle; [|unfold by_key; by rewrite Ha].
  apply lex_tie in Hle; [|unfold by_key; by rewrite Ht].
  apply lex_tie in Hle; [|unfold by_key; by rewrite Hv].
  unfold by_key in Hle.
  apply recognised_SubtagOrder in Hr2 as [n2 Hn2].
  rewrite recognised_SubtagOrder in Hn1. rewrite Hn2 in Hle.
  destruct (SubtagOrder r1) as [n1|]; [|done]. apply Hn1. by eexists.
Qed.



(** ** Paths *)

Lemma prefix_slash_cons (c : ascii) (s : string) :
  String.prefix "/" (String c s) = bool_decide ("/"%char = c).
Proof.
  cbn [String.prefix]. destruct (ascii_dec "/" c) as [Hc|Hc].
  - rewrite bool_decide_eq_true_2 by done. by destruct s.
  - by rewrite bool_decide_eq_false_2.
Qed.

Lemma str_in_cons (sub : string) (c : ascii) (s : string) :
  str_in sub (String c s) = String.prefix sub (String c s) || str_in sub s.
Proof. done. Qed.

Lemma prefix_slash_app (p s : string) :
  str_in "/" p = false → String.prefix "/" s = false →
  String.prefix "/" (p ++ s) = false.
Proof.
  destruct p as [|c p]; [done|].
  rewrite str_in_cons. intros Hp%orb_false_elim _.
  change (String c p ++ s) with (String c (p ++ s)).
  rewrite prefix_slash_cons in *. tauto.
Qed.

Lemma basename_no_slash (p : string) : str_in "/" (basename p) = false.
Proof.
  induction p as [|c p IH]; [done|]. simpl.
  destruct (str_in "/" p) eqn:Hp; [done|].
  destruct (Ascii.eqb_spec c "/") as [->|Hc]; [done|].
  rewrite str_in_cons, Hp, prefix_slash_cons.
  by rewrite bool_decide_eq_false_2.
Qed.

Lemma os_path_join_previews (p : string) :
  str_in "/" p = false →
  os_path_join "plots_previews" (p ++ ".png") = preview_path p.
Proof.
  intros Hp. unfold os_path_join.
  by rewrite (prefix_slash_app p ".png" Hp).
Qed.

Lemma output_path_previews (name : string) :
  str_in "/" name = false → output_path name = preview_path name.
Proof.
  intros Hp. unfold output_path, path_div.
  by rewrite (prefix_slash_app name ".png" Hp).
Qed.

Lemma length_append (s t : string) :
  String.length (s ++ t) = (String.length s + String.length t)%nat.
Proof. induction s as [|c s IH]; simpl; [done|by rewrite IH]. Qed.

Lemma append_inj_r (s1 s2 t : string) : s1 ++ t = s2 ++ t → s1 = s2.
Proof.
  revert s2. induction s1 as [|c s1 IH]; intros [|c' s2] H.
  - done.
  - apply (f_equal String.length) in H.
    rewrite !length_append in H. simpl in H. lia.
  - apply (f_equal String.length) in H.
    rewrite !length_append in H. simpl in H. lia.
  - injection H as -> H. f_equal. by apply IH.
Qed.

Lemma preview_path_inj (p1 p2 : string) :
  preview_path p1 = preview_path p2 → p1 = p2.
Proof.
  unfold preview_path. intros H.
  apply (inj (String.app "plots_previews/")) in H.
  by apply append_inj_r in H.
Qed.

(** C7.  For every plot-file reference [p] (the basename of a plot path),
    the preview is the path plots_previews/p.png when something exists at
    that path and no value otherwise, and the file system is left as it
    was. *)
Theorem get_preview_image_spec (plot_path : string) (fs : filesystem) :
  get_preview_image (basename plot_path) fs
  = (if decide (preview_path (basename plot_path) ∈ fs)
     then Some (preview_path (basename plot_path))
     else None,
     fs).
Proof.
  unfold get_preview_image, os_path_exists.
  rewrite (os_path_join_previews _ (basename_no_slash plot_path)).
  destruct (decide (preview_path (basename plot_path) ∈ fs)) as [Hin|Hout].
  - by rewrite bool_decide_eq_true_2.
  - by rewrite bool_decide_eq_false_2.
Qed.

Lemma get_preview_image_example :
  get_preview_image "a.pdf" {["plots_previews/a.pdf.png"]}
  = (Some "plots_previews/a.pdf.png", {["plots_previews/a.pdf.png"]}) ∧
  get_preview_image "a.pdf" ∅ = (None, ∅).
Proof. split; by vm_compute. Qed.

(** ** The converter *)

Section ConverterFacts.
Context {image : Type}.
Variable convert_from_path : string → Z → Z → Z → result (list image).

Lemma files_convert_one (name : string) (w : @world image) :
  files (convert_one convert_from_path name w)
  = write_png convert_from_path name (files w).
Proof.
  unfold convert_one, write_png, first_page.
  by destruct (convert_from_path _ _ _ _) as [[|img imgs]|e].
Qed.

Lemma files_foldl (names : list string) (w : @world image) :
  files (foldl (λ w name, convert_one convert_from_path name w) w names)
  = foldl (λ m name, write_png convert_from_path name m) (files w) names.
Proof.
  revert w. induction names as [|n names IH]; intros w; [done|].
  simpl. by rewrite IH, files_convert_one.
Qed.

Lemma output_path_inj (n1 n2 : string) :
  filename n1 → filename n2 → output_path n1 = output_path n2 → n1 = n2.
Proof.
  intros [_ H1] [_ H2]. rewrite !output_path_previews by done.
  apply preview_path_inj.
Qed.

Lemma write_png_lookup_ne (n name : string) (m : gmap string image) :
  filename n → filename name → n ≠ name →
  write_png convert_from_path n m !! output_path name
  = m !! output_path name.
Proof.
  intros Hn Hname Hne. unfold write_png.
  destruct (first_page convert_from_path n); [|done].
  apply lookup_insert_ne. intros Heq. by apply Hne, output_path_inj.
Qed.

Lemma write_png_lookup (name : string) (m : gmap string image) :
  write_png convert_from_path name m !! output_path name
  = match first_page convert_from_path name with
    | Some img => Some img
    | None => m !! output_path name
    end.
Proof.
  unfold write_png.
  destruct (first_page convert_from_path name); [|done].
  apply lookup_insert_eq.
Qed.

Lemma foldl_write_png_lookup (names : list string) (name : string)
    (m : gmap string image) :
  Forall filename names → filename name →
  foldl (λ m n, write_png convert_from_path n m) m names !! output_path name
  = if decide (name ∈ names)
    then match first_page convert_from_path name with
         | Some img => Some img
         | None => m !! output_path name
         end
    else m !! output_path name.
Proof.
  intros Hall Hname. revert m.
  induction Hall as [|n names Hn _ IH]; intros m; [done|].
  simpl. rewrite IH. destruct (decide (n = name)) as [->|Hne].
  - rewrite (decide_True (P := name ∈ name :: names)) by by left.
    rewrite write_png_lookup.
    destruct (decide (name ∈ names));
      by destruct (first_page convert_from_path name).
  - rewrite write_png_lookup_ne by done.
    destruct (decide (name ∈ names)) as [Hin|Hout].
    + by rewrite (decide_True (P := name ∈ n :: names)) by by right.
    + rewrite (decide_False (P := name ∈ n :: names)); [done|].
      rewrite elem_of_cons. naive_solver.
Qed.

Lemma write_png_comm (a b : string) (m : gmap string image) :
  filename a → filename b →
  write_png convert_from_path a (write_png convert_from_path b m)
  = write_png convert_from_path b (write_png convert_from_path a m).
Proof.
  intros Ha Hb. destruct (decide (a = b)) as [->|Hne]; [done|].
  unfold write_png.
  destruct (first_page convert_from_path a),
    (first_page convert_from_path b); try done.
  apply insert_insert_ne. intros Heq. by apply Hne, output_path_inj.
Qed.


Lemma glob_pdf_filename (listing : list string) :
  Forall filename listing → Forall filename (glob_pdf listing).
Proof.
  intros Hall. apply Forall_forall. intros n Hn.
  apply list_elem_of_filter in Hn as [_ Hn].
  by eapply Forall_forall in Hall.
Qed.




Lemma convert_all_lookup (listing : list string) (w : @world image)
    (name : string) :
  Forall filename listing →
  name ∈ listing →
  ends_with ".pdf" name = true →
  files (convert_all convert_from_path listing w) !! output_path name
  = match first_page convert_from_path name with
    | Some img => Some img
    | None => files w !! output_path name
    end.
Proof.
  intros Hall Hin Hpdf.
  assert (filename name) as Hname by by eapply Forall_forall in Hall.
  assert (name ∈ glob_pdf listing) as Hglob.
  { apply list_elem_of_filter. by split. }
  unfold convert_all. rewrite files_foldl.
  rewrite foldl_write_png_lookup by (done || by apply glob_pdf_filename).
  by rewrite decide_True.
Qed.

End ConverterFacts.


(** ** Empty frames *)


Lemma filtered_empty_tags_tolerated (df : list row) (ui : sidebar) :
  selected_tags ui = [] → video_search ui = "" →
  ∃ f, filtered df ui = Some f ∧
       summary_df f = [] ∧ rmse_max f = None ∧ rmse_min f = None ∧
       ∀ m, range_y f m = (0%Qc, None).
Proof.
  intros Htags Hsearch. exists []. split; [|done].
  unfold filtered, algo_df. rewrite Htags, Hsearch.
  rewrite (filter_none (λ r : row, Tag r ∈ []))
    by (intros r; apply not_elem_of_nil).
  by destruct (decide (selected_algorithm ui ≠ "All algorithms")).
Qed.

(** ** Converter and preview agree on names *)

Lemma append_assoc (s1 s2 s3 : string) : (s1 ++ s2) ++ s3 = s1 ++ s2 ++ s3.
Proof.
  induction s1 as [|c s1 IH]; [done|].
  change (String c ((s1 ++ s2) ++ s3) = String c (s1 ++ s2 ++ s3)).
  by rewrite IH.
Qed.

Lemma get_preview_image_filename (name : string) (fs : filesystem) :
  filename name →
  get_preview_image name fs
  = (if decide (output_path name ∈ fs) then Some (output_path name) else None,
     fs).
Proof.
  intros [_ Hname]. unfold get_preview_image, os_path_exists.
  rewrite os_path_join_previews, output_path_previews by done.
  destruct (decide (preview_path name ∈ fs)) as [Hin|Hout].
  - by rewrite bool_decide_eq_true_2.
  - by rewrite bool_decide_eq_false_2.
Qed.

(** C10.  For source PDFs named N.pdf (directory entries), the converter
    writes to exactly plots_previews/N.pdf.png, the dashboard looks up
    exactly that path for the plot reference N.pdf, and two sources with the
    same output path have the same name. *)
Theorem preview_naming_round_trip (N1 N2 : string) (fs : filesystem) :
  filename (N1 ++ ".pdf") →
  filename (N2 ++ ".pdf") →
  output_path (N1 ++ ".pdf") = "plots_previews/" ++ N1 ++ ".pdf.png" ∧
  get_preview_image (N1 ++ ".pdf") fs
  = (if decide (output_path (N1 ++ ".pdf") ∈ fs)
     then Some (output_path (N1 ++ ".pdf"))
     else None,
     fs) ∧
  (output_path (N1 ++ ".pdf") = output_path (N2 ++ ".pdf") → N1 = N2).
Proof.
  intros H1 H2. split; [|split].
  - rewrite output_path_previews by apply H1.
    unfold preview_path. by rewrite append_assoc.
  - by apply get_preview_image_filename.
  - rewrite !output_path_previews by (apply H1 || apply H2).
    intros Heq%preview_path_inj. by apply append_inj_r in Heq.
Qed.

Lemma preview_naming_round_trip_witness :
  output_path "a.pdf" = "plots_previews/a.pdf.png" ∧
  get_preview_image "a.pdf" {["plots_previews/a.pdf.png"]}
  = (Some "plots_previews/a.pdf.png", {["plots_previews/a.pdf.png"]}).
Proof.
  destruct (preview_naming_round_trip "a" "b" {["plots_previews/a.pdf.png"]})
    as (Hout & Hget & _).
  - done.
  - done.
  - split; [exact Hout|]. etrans; [exact Hget|]. by vm_compute.
Defined.

Section RoundTrip.
Context {image : Type}.
Variable convert_from_path : string → Z → Z → Z → result (list image).

(** A source the rasterizer converts is found by the dashboard once the
    converter has run. *)
Lemma preview_found_after_conversion (listing : list string)
    (w : @world image) (name : string) (img : image) :
  Forall filename listing →
  name ∈ listing →
  ends_with ".pdf" name = true →
  first_page convert_from_path name = Some img →
  get_preview_image name
    (dom (files (convert_all convert_from_path listing w)))
  = (Some (output_path name),
     dom (files (convert_all convert_from_path listing w))).
Proof.
  intros Hall Hin Hpdf Himg.
  assert (filename name) as Hname by by eapply Forall_forall in Hall.
  rewrite get_preview_image_filename by done.
  rewrite decide_True; [done|]. apply elem_of_dom.
  rewrite convert_all_lookup, Himg by done. by eexists.
Qed.
End RoundTrip.

(** ** What the widgets can return *)

Lemma algo_df_subseteq (df : list row) (ui : sidebar) (r : row) :
  r ∈ algo_df df ui → r ∈ df.
Proof.
  unfold algo_df.
  destruct (decide (selected_algorithm ui ≠ "All algorithms")); intros Hr;
    repeat (apply list_elem_of_filter in Hr as [_ Hr]); done.
Qed.

(** The subtags offered by the sidebar are recognised ones, so every
    selection the widgets return meets the condition of
    [filtered_categorical]. *)
Lemma widget_state_subtags (records : list typed_record) (df : list row)
    (ui : sidebar) :
  DataFrame records = Ok df → widget_state df ui →
  selected_subtags ui ⊆ subtag_order.
Proof.
  intros Hdf (_ & _ & Hsub) s Hs. apply DataFrame_Ok in Hdf as ->.
  apply Hsub in Hs. unfold available_subtags in Hs.
  apply elem_of_unique, elem_of_dropna, list_elem_of_fmap in Hs
    as (r & Hr & Hin).
  apply algo_df_subseteq, list_elem_of_fmap in Hin as (t & -> & _).
  simpl in Hr. unfold Categorical in Hr.
  destruct (decide (Subtag t ∈ subtag_order)); by simplify_eq.
Qed.

(** The example entry, from the JSON value to the row of the frame: one
    row with Tag "NWC", Subtag "mp4_low", Video "vid1" and RMSE 3/2. *)
Lemma spec_example_row :
  extract [spec_example]
  = Ok [mkRecord (PyStr "ALG1") "NWC" "mp4_low" (PyStr "vid1")
          (PyFloat (Q2Qc (3 # 2))) PyNone PyNone PyNone PyNone PyNone ""] ∧
  typed (mkRecord (PyStr "ALG1") "NWC" "mp4_low" (PyStr "vid1")
           (PyFloat (Q2Qc (3 # 2))) PyNone PyNone PyNone PyNone PyNone "")
  = Some (mkRecord "ALG1" "NWC" "mp4_low" "vid1"
            (Some (Q2Qc (3 # 2))) None None None None None "") ∧
  DataFrame [mkRecord "ALG1" "NWC" "mp4_low" "vid1"
               (Some (Q2Qc (3 # 2))) None None None None None ""]
  = Ok [mkRecord "ALG1" "NWC" (Some "mp4_low") "vid1"
          (Some (Q2Qc (3 # 2))) None None None None None ""].
Proof. repeat split. Qed.

(** ** Record extraction: outcomes, errors and invariants *)

Lemma str_in_slash_cons (c : ascii) (s : string) :
  str_in "/" (String c s) = bool_decide ("/"%char = c) || str_in "/" s.
Proof. by rewrite str_in_cons, prefix_slash_cons. Qed.

Lemma split_no_slash (s : string) :
  Forall no_slash (split "/" s).
Proof.
  induction s as [|c s IH]; [by repeat constructor|]. simpl.
  destruct (Ascii.eqb_spec c "/") as [->|Hc]; [by constructor|].
  assert (∀ h, no_slash h → no_slash (String c h)) as Hcons.
  { intros h Hh. unfold no_slash in *. rewrite str_in_slash_cons, Hh.
    by rewrite bool_decide_eq_false_2. }
  destruct (split "/" s) as [|h r].
  - repeat constructor. by apply Hcons.
  - apply Forall_cons in IH as [Hh Hr]. constructor; [by apply Hcons|done].
Qed.

(** What an iteration that appends a record has read. *)
Lemma extract_entry_Some (entry : pyval) (r : raw_record) :
  extract_entry entry = Ok (Some r) →
  ∃ d rel plot tag1 tag2 rest,
    entry = PyDict d ∧
    py_in "groundTruth" (field d "algorithm" (PyStr "")) = Ok false ∧
    field d "algorithm_relative_folder" (PyStr "") = PyStr rel ∧
    field d "plot_path" (PyStr "") = PyStr plot ∧
    split "/" rel = tag1 :: tag2 :: rest ∧
    r = mkRecord (field d "algorithm" (PyStr "")) tag1 tag2
          (field d "folder" (PyStr ""))
          (field d "rmse" PyNone) (field d "mean" PyNone)
          (field d "median" PyNone) (field d "std" PyNone)
          (field d "min" PyNone) (field d "max" PyNone) (basename plot).
Proof.
  destruct entry as [| | | | |l|d]; try done.
  unfold extract_entry. rewrite !py_get_dict. simpl.
  destruct (py_in "groundTruth" (field d "algorithm" (PyStr "")))
    as [[|]|e] eqn:Hgt; simpl; try done.
  destruct (field d "plot_path" (PyStr "")) as [| | | |plot| |] eqn:Hp;
    simpl; try done.
  destruct (field d "algorithm_relative_folder" (PyStr ""))
    as [| | | |rel| |] eqn:Hr; simpl; try done.
  destruct (split "/" rel) as [|tag1 [|tag2 rest]] eqn:Hs; try done.
  intros [= <-]. by exists d, rel, plot, tag1, tag2, rest.
Qed.

Lemma extract_entry_accepted (entry : pyval) :
  (∃ o, extract_entry entry = Ok o) ↔ accepted entry.
Proof.
  destruct entry as [| | | | |l|d]; simpl;
    try (split; [by intros [? ?]|done]).
  unfold extract_entry, str_field. rewrite !py_get_dict. simpl.
  destruct (py_in "groundTruth" (field d "algorithm" (PyStr "")))
    as [[|]|e]; simpl.
  - split; [done|by eexists].
  - destruct (field d "plot_path" (PyStr "")) as [| | | |plot| |]; simpl;
      try (split; [by intros [? ?]|by intros [_ [? ?]]]).
    destruct (field d "algorithm_relative_folder" (PyStr ""))
      as [| | | |rel| |]; simpl;
      try (split; [by intros [? ?]|by intros [[? ?] _]]).
    split; [by split; eexists|]. intros _.
    destruct (split "/" rel) as [|tag1 [|tag2 rest]]; by eexists.
  - split; [by intros [? ?]|done].
Qed.

(** The accumulator of the loop only grows at its end. *)
Lemma extract_loop_acc (data : list pyval) (records : list raw_record) :
  extract_loop data records
  = (new <- extract_loop data [] ;; Ok (records ++ new)%list).
Proof.
  revert records. induction data as [|e data IH]; intros records; simpl.
  - by rewrite app_nil_r.
  - destruct (extract_entry e) as [[r|]|x]; simpl; [|apply IH|done].
    rewrite (IH (records ++ [r])%list), (IH [r]).
    destruct (extract_loop data []) as [new|x]; simpl; [|done].
    by rewrite <- app_assoc.
Qed.

Lemma extract_cons (entry : pyval) (data : list pyval) :
  extract (entry :: data)
  = (o <- extract_entry entry ;;
     rest <- extract data ;;
     Ok (option_list o ++ rest)%list).
Proof.
  unfold extract. simpl.
  destruct (extract_entry entry) as [[r|]|x]; simpl.
  - by rewrite extract_loop_acc.
  - by destruct (extract_loop data []).
  - done.
Qed.

Lemma extract_omap (data : list pyval) (records : list raw_record) :
  extract data = Ok records →
  Forall accepted data ∧ records = omap entry_record data.
Proof.
  revert records. induction data as [|e data IH]; intros records.
  - by intros [= <-].
  - rewrite extract_cons. unfold entry_record at 1.
    destruct (extract_entry e) as [o|x] eqn:He; simpl; [|done].
    destruct (extract data) as [rest|x]; simpl; [|done].
    intros [= <-]. destruct (IH rest eq_refl) as [Hall ->].
    split.
    + constructor; [|done]. apply extract_entry_accepted. by eexists.
    + simpl. unfold entry_record at 1. rewrite He. by destruct o.
Qed.

Lemma extract_accepted (data : list pyval) :
  Forall accepted data → extract data = Ok (omap entry_record data).
Proof.
  induction 1 as [|e data He _ IH]; [done|].
  rewrite extract_cons, IH.
  apply extract_entry_accepted in He as [o He].
  simpl. unfold entry_record at 2. rewrite He. simpl. by destruct o.
Qed.

Lemma extract_Forall (P : raw_record → Prop) (data : list pyval)
    (records : list raw_record) :
  (∀ e r, extract_entry e = Ok (Some r) → P r) →
  extract data = Ok records → Forall P records.
Proof.
  intros HP [_ ->]%extract_omap. apply Forall_forall. intros r Hr.
  apply list_elem_of_omap in Hr as (e & _ & He).
  apply (HP e). unfold entry_record in He.
  by destruct (extract_entry e) as [o|]; simplify_eq.
Qed.

Lemma extract_records_no_slash (data : list pyval)
    (records : list raw_record) :
  extract data = Ok records →
  Forall (λ r, no_slash (Tag r) ∧ no_slash (Subtag r) ∧
               no_slash (Plot_PDF r)) records.
Proof.
  apply extract_Forall. intros e r He.
  apply extract_entry_Some in He
    as (d & rel & plot & t1 & t2 & rest & _ & _ & _ & _ & Hs & ->).
  pose proof (split_no_slash rel) as Hall. rewrite Hs in Hall.
  apply Forall_cons in Hall as [H1 Hall].
  apply Forall_cons in Hall as [H2 _].
  repeat split; [done..|]. apply basename_no_slash.
Qed.

(** X1.  The extraction returns records exactly when every entry is an
    object whose algorithm is a string, a list or an object and which
    either is a ground-truth entry or has a relative folder and a plot path
    that are strings or missing. *)
Theorem extract_Ok_iff (data : list pyval) :
  (∃ records, extract data = Ok records) ↔ Forall accepted data.
Proof.
  split.
  - intros [records H]. by apply extract_omap in H as [? _].
  - intros H. eexists. by apply extract_accepted.
Qed.

(** X2.  The extraction raises the exception of the first entry that is
    not accepted, whatever follows it: no record is returned. *)
Theorem extract_first_error (before after : list pyval) (bad : pyval)
    (x : exn) :
  Forall accepted before →
  extract_entry bad = Raise x →
  extract (before ++ bad :: after) = Raise x.
Proof.
  intros Hall Hbad. induction Hall as [|e before He _ IH]; simpl.
  - by rewrite extract_cons, Hbad.
  - rewrite extract_cons, IH.
    by apply extract_entry_accepted in He as [o ->].
Qed.

Lemma extract_first_error_witness :
  extract [spec_example; null_algorithm_entry; spec_example]
  = Raise TypeError.
Proof.
  apply (extract_first_error [spec_example] [spec_example]
           null_algorithm_entry TypeError).
  - repeat constructor; simpl; eauto.
  - reflexivity.
Defined.

(** X3.  When the extraction succeeds, the records are those of the
    entries, at most one for each, in the order of the entries. *)
Theorem extract_in_order (data : list pyval) (records : list raw_record) :
  extract data = Ok records →
  records = omap entry_record data ∧ (length records ≤ length data)%nat.
Proof.
  intros [_ ->]%extract_omap. split; [done|].
  induction data as [|e data IH]; [done|].
  change (omap entry_record (e :: data))
    with (match entry_record e with
          | Some r => r :: omap entry_record data
          | None => omap entry_record data
          end).
  destruct (entry_record e); simpl; lia.
Qed.

Lemma extract_in_order_witness :
  omap entry_record [ground_truth_entry; spec_example]
  = [mkRecord (PyStr "ALG1") "NWC" "mp4_low" (PyStr "vid1")
       (PyFloat (Q2Qc (3 # 2))) PyNone PyNone PyNone PyNone PyNone ""].
Proof.
  symmetry.
  apply (extract_in_order [ground_truth_entry; spec_example]).
  reflexivity.
Defined.

(** X4.  Extraction distributes over concatenation of the input. *)
Theorem extract_app (data1 data2 : list pyval)
    (records1 records2 : list raw_record) :
  extract data1 = Ok records1 →
  extract data2 = Ok records2 →
  extract (data1 ++ data2) = Ok (records1 ++ records2)%list.
Proof.
  intros [H1 ->]%extract_omap [H2 ->]%extract_omap.
  rewrite extract_accepted by by apply Forall_app.
  by rewrite omap_app.
Qed.

Lemma extract_app_witness :
  extract ([spec_example] ++ [ground_truth_entry; spec_example])
  = Ok ([mkRecord (PyStr "ALG1") "NWC" "mp4_low" (PyStr "vid1")
           (PyFloat (Q2Qc (3 # 2))) PyNone PyNone PyNone PyNone PyNone ""]
        ++ [mkRecord (PyStr "ALG1") "NWC" "mp4_low" (PyStr "vid1")
              (PyFloat (Q2Qc (3 # 2))) PyNone PyNone PyNone PyNone PyNone
              ""])%list.
Proof.
  apply (extract_app [spec_example] [ground_truth_entry; spec_example]);
    reflexivity.
Defined.

(** X5.  No record of a successful extraction has an algorithm that
    contains "groundTruth", whatever the input was. *)
Theorem extract_no_ground_truth (data : list pyval)
    (records : list raw_record) :
  extract data = Ok records →
  Forall (λ r, py_in "groundTruth" (Algorithm r) = Ok false) records.
Proof.
  apply extract_Forall. intros e r He.
  by apply extract_entry_Some in He
    as (d & rel & plot & t1 & t2 & rest & _ & Hgt & _ & _ & _ & ->).
Qed.

Lemma extract_no_ground_truth_witness :
  Forall (λ r : raw_record, py_in "groundTruth" (Algorithm r) = Ok false)
    [mkRecord (PyStr "ALG1") "NWC" "mp4_low" (PyStr "vid1")
       (PyFloat (Q2Qc (3 # 2))) PyNone PyNone PyNone PyNone PyNone ""].
Proof.
  apply (extract_no_ground_truth [ground_truth_entry; spec_example]).
  reflexivity.
Defined.

(** X6.  In every record of a successful extraction the Tag, the Subtag
    and the plot reference hold no slash, so the preview of the record is
    looked up inside plots_previews, whatever the plot path of the entry
    was. *)
Theorem extract_preview_inside (data : list pyval)
    (records : list raw_record) (r : raw_record) (fs : filesystem) :
  extract data = Ok records →
  r ∈ records →
  no_slash (Tag r) ∧ no_slash (Subtag r) ∧ no_slash (Plot_PDF r) ∧
  get_preview_image (Plot_PDF r) fs
  = (if decide (preview_path (Plot_PDF r) ∈ fs)
     then Some (preview_path (Plot_PDF r))
     else None,
     fs).
Proof.
  intros Hall%extract_records_no_slash Hr.
  eapply Forall_forall in Hall as (Ht & Hs & Hp); [|done].
  repeat split; [done..|].
  unfold get_preview_image, os_path_exists.
  rewrite os_path_join_previews by done.
  destruct (decide (preview_path (Plot_PDF r) ∈ fs)) as [Hin|Hout].
  - by rewrite bool_decide_eq_true_2.
  - by rewrite bool_decide_eq_false_2.
Qed.

Lemma extract_preview_inside_witness :
  get_preview_image "passwd" {["plots_previews/passwd.png"]}
  = (Some "plots_previews/passwd.png", {["plots_previews/passwd.png"]}).
Proof.
  destruct (extract_preview_inside
              [PyDict [("algorithm", PyStr "ALG1");
                       ("algorithm_relative_folder", PyStr "NWC/mp4_low");
                       ("plot_path", PyStr "../../etc/passwd")]]
              [mkRecord (PyStr "ALG1") "NWC" "mp4_low" (PyStr "")
                 PyNone PyNone PyNone PyNone PyNone PyNone "passwd"]
              (mkRecord (PyStr "ALG1") "NWC" "mp4_low" (PyStr "")
                 PyNone PyNone PyNone PyNone PyNone PyNone "passwd")
              {["plots_previews/passwd.png"]})
    as (_ & _ & _ & Hget).
  - reflexivity.
  - by left.
  - etrans; [exact Hget|]. by vm_compute.
Defined.

(** ** Sidebar: options and row-wise filtering *)

Lemma filtered_keeps (df : list row) (ui : sidebar) :
  filtered df ui
  = (contains ← compiled_search ui; Some (filter (keeps ui contains) df)).
Proof.
  unfold filtered, compiled_search, algo_df.
  assert (∀ c : string → bool,
            filter (λ r, c (Video r) = true)
              (filter (λ r, isin (selected_subtags ui) (Subtag r))
                 (if decide (selected_algorithm ui ≠ "All algorithms")
                  then filter (λ r, Algorithm r = selected_algorithm ui)
                         (filter (λ r, Tag r ∈ selected_tags ui) df)
                  else filter (λ r, Tag r ∈ selected_tags ui) df))
            = filter (keeps ui c) df) as Hall.
  { intros c.
    destruct (decide (selected_algorithm ui ≠ "All algorithms")) as [Hne|He];
      rewrite !list_filter_filter; apply list_filter_iff; intros r;
      unfold keeps; [naive_solver|].
    apply dec_stable in He. naive_solver. }
  destruct (decide (video_search ui = "")) as [Hs|Hs]; simpl.
  - f_equal. rewrite <- (Hall (λ _, true)). symmetry. by apply filter_all.
  - destruct (str_contains (video_search ui)) as [c|]; simpl; [|done].
    by rewrite Hall.
Qed.

Lemma sorted_Sorted (l : list string) : Sorted String.le (sorted l).
Proof. apply Sorted_merge_sort; apply _. Qed.

Lemma NoDup_sorted_unique (l : list string) : NoDup (sorted (unique l)).
Proof. unfold sorted. rewrite merge_sort_Permutation. apply NoDup_unique. Qed.

(** X7.  The jobsite options are the tags of the frame, each once, in
    ascending order; the algorithm options are "All algorithms" followed by
    the algorithms of the frame, each once, in ascending order. *)
Theorem sidebar_options (df : list row) :
  Sorted String.le (tag_options df) ∧
  NoDup (tag_options df) ∧
  (∀ t, t ∈ tag_options df ↔ ∃ r, r ∈ df ∧ Tag r = t) ∧
  ∃ algorithms,
    algorithm_options df = "All algorithms" :: algorithms ∧
    Sorted String.le algorithms ∧
    NoDup algorithms ∧
    ∀ a, a ∈ algorithms ↔ ∃ r, r ∈ df ∧ Algorithm r = a.
Proof.
  split; [apply sorted_Sorted|]. split; [apply NoDup_sorted_unique|].
  split.
  - intros t. unfold tag_options.
    rewrite elem_of_sorted, elem_of_unique, list_elem_of_fmap. naive_solver.
  - eexists. split; [done|]. split; [apply sorted_Sorted|].
    split; [apply NoDup_sorted_unique|]. intros a.
    rewrite elem_of_sorted, elem_of_unique, list_elem_of_fmap. naive_solver.
Qed.





(** X10.  Whatever jobsites and algorithm are selected, leaving every
    available subtag selected and the search empty keeps exactly the rows
    of that jobsite and algorithm selection whose Subtag is not NaN. *)
Theorem filtered_all_available (df : list row) (ui : sidebar) :
  selected_subtags ui = available_subtags (algo_df df ui) →
  video_search ui = "" →
  filtered df ui = Some (filter (λ r, is_Some (Subtag r)) (algo_df df ui)).
Proof.
  intros Hsub Hsearch. unfold filtered. rewrite Hsearch. simpl. f_equal.
  rewrite Hsub. apply filter_iff_on. intros r Hr.
  unfold available_subtags. destruct (Subtag r) as [s|] eqn:Hs; simpl.
  - rewrite elem_of_unique, elem_of_dropna, list_elem_of_fmap.
    split; [by eexists|]. intros _. by exists r.
  - split; [done|by intros [? ?]].
Qed.

Lemma filtered_all_available_witness :
  filtered (categorical_row <$> [alg1_low; alg2_high; alg1_ultra])
    (mkSidebar "ALG1" ["NWC"; "SITE"] ["mp4_low"] "")
  = Some [categorical_row alg1_low].
Proof.
  etrans;
    [apply (filtered_all_available
              (categorical_row <$> [alg1_low; alg2_high; alg1_ultra])
              (mkSidebar "ALG1" ["NWC"; "SITE"] ["mp4_low"] ""));
     reflexivity|].
  reflexivity.
Defined.

(** X11.  Every subtag the sidebar offers matches a row: selecting it
    alone, with the same jobsites and algorithm and no search, leaves a
    frame that is not empty. *)
Theorem available_subtag_matches (df : list row) (ui : sidebar)
    (s : string) :
  s ∈ available_subtags (algo_df df ui) →
  ∃ f r,
    filtered df
      (mkSidebar (selected_algorithm ui) (selected_tags ui) [s] "")
    = Some f ∧
    r ∈ f ∧ Subtag r = Some s.
Proof.
  intros Hs. unfold available_subtags in Hs.
  apply elem_of_unique, elem_of_dropna, list_elem_of_fmap in Hs
    as (r & Hr & Hin).
  eexists _, r. split; [reflexivity|]. split; [|done].
  apply list_elem_of_filter. split; [|exact Hin].
  simpl. rewrite <- Hr. simpl. by left.
Qed.

Lemma available_subtag_matches_witness :
  ∃ f r,
    filtered (categorical_row <$> [alg1_low; alg2_high; alg1_ultra])
      (mkSidebar "All algorithms" ["NWC"] ["mp4_high"] "")
    = Some f ∧
    r ∈ f ∧ Subtag r = Some "mp4_high".
Proof.
  apply (available_subtag_matches
           (categorical_row <$> [alg1_low; alg2_high; alg1_ultra])
           (mkSidebar "All algorithms" ["NWC"] [] "x") "mp4_high").
  by apply (bool_decide_unpack _).
Defined.

Lemma lower_str_empty (s : string) : lower_str s = "" → s = "".
Proof. by destruct s. Qed.

(** X12.  The search ignores the letter case of the search text: two
    search texts without regular-expression metacharacter that differ only
    in the case of their letters select the same rows. *)
Theorem filtered_search_case (df : list row) (algorithm : string)
    (tags subtags : list string) (search1 search2 : string) :
  literal search1 →
  literal search2 →
  lower_str search1 = lower_str search2 →
  filtered df (mkSidebar algorithm tags subtags search1)
  = filtered df (mkSidebar algorithm tags subtags search2).
Proof.
  intros H1 H2 Hlow. rewrite !filtered_keeps. unfold compiled_search. simpl.
  destruct (decide (search1 = "")) as [->|Hn1].
  { symmetry in Hlow. apply lower_str_empty in Hlow as ->. done. }
  destruct (decide (search2 = "")) as [->|Hn2].
  { by apply lower_str_empty in Hlow. }
  destruct (str_contains_literal _ H1) as (c1 & -> & Hc1).
  destruct (str_contains_literal _ H2) as (c2 & -> & Hc2). simpl.
  f_equal. apply list_filter_iff. intros r. unfold keeps. simpl.
  rewrite Hc1, Hc2. unfold contains_ci. by rewrite Hlow.
Qed.

Lemma filtered_search_case_witness :
  filtered (categorical_row <$> [alg1_low; alg2_high])
    (mkSidebar "All algorithms" ["NWC"] ["mp4_low"; "mp4_high"] "vid")
  = filtered (categorical_row <$> [alg1_low; alg2_high])
      (mkSidebar "All algorithms" ["NWC"] ["mp4_low"; "mp4_high"] "VID").
Proof.
  apply filtered_search_case.
  - by apply (bool_decide_unpack _).
  - by apply (bool_decide_unpack _).
  - reflexivity.
Defined.

(** ** Extrema, means and ranges *)

Lemma foldr_Qc_max (v : Qc) (vs : list Qc) :
  foldr Qc_max v vs ∈ v :: vs ∧
  ∀ x, x ∈ v :: vs → (x ≤ foldr Qc_max v vs)%Qc.
Proof.
  induction vs as [|a vs [IHin IHle]]; simpl.
  - split; [by left|]. intros x ->%list_elem_of_singleton. apply Qcle_refl.
  - unfold Qc_max at 1 3.
    destruct (decide (a ≤ foldr Qc_max v vs)%Qc) as [Hle|Hgt].
    + split.
      * apply elem_of_cons in IHin as [->|Hin]; [by left|by do 2 right].
      * intros x [->|[->|Hx]%elem_of_cons]%elem_of_cons; [|done|].
        -- apply IHle. by left.
        -- apply IHle. by right.
    + assert (foldr Qc_max v vs ≤ a)%Qc as Hle.
      { by destruct (total Qcle a (foldr Qc_max v vs)). }
      split; [by right; left|].
      intros x [->|[->|Hx]%elem_of_cons]%elem_of_cons.
      * etrans; [|exact Hle]. apply IHle. by left.
      * apply Qcle_refl.
      * etrans; [|exact Hle]. apply IHle. by right.
Qed.

Lemma foldr_Qc_min (v : Qc) (vs : list Qc) :
  foldr Qc_min v vs ∈ v :: vs ∧
  ∀ x, x ∈ v :: vs → (foldr Qc_min v vs ≤ x)%Qc.
Proof.
  induction vs as [|a vs [IHin IHle]]; simpl.
  - split; [by left|]. intros x ->%list_elem_of_singleton. apply Qcle_refl.
  - unfold Qc_min at 1 3.
    destruct (decide (a ≤ foldr Qc_min v vs)%Qc) as [Hle|Hgt].
    + split; [by right; left|].
      intros x [->|[->|Hx]%elem_of_cons]%elem_of_cons.
      * etrans; [exact Hle|]. apply IHle. by left.
      * apply Qcle_refl.
      * etrans; [exact Hle|]. apply IHle. by right.
    + assert (foldr Qc_min v vs ≤ a)%Qc as Hle.
      { by destruct (total Qcle a (foldr Qc_min v vs)). }
      split.
      * apply elem_of_cons in IHin as [->|Hin]; [by left|by do 2 right].
      * intros x [->|[->|Hx]%elem_of_cons]%elem_of_cons; [|done|].
        -- apply IHle. by left.
        -- apply IHle. by right.
Qed.

Lemma series_max_spec (xs : list (option Qc)) (v : Qc) :
  Some v ∈ xs →
  ∃ hi, series_max xs = Some hi ∧ Some hi ∈ xs ∧
        ∀ x, Some x ∈ xs → (x ≤ hi)%Qc.
Proof.
  intros Hv%elem_of_dropna. unfold series_max.
  destruct (dropna xs) as [|a vs] eqn:Hd; [by apply elem_of_nil in Hv|].
  destruct (foldr_Qc_max a vs) as [Hin Hle].
  eexists. split; [done|]. split.
  - apply elem_of_dropna. by rewrite Hd.
  - intros x Hx%elem_of_dropna. apply Hle. by rewrite <- Hd.
Qed.

Lemma series_min_spec (xs : list (option Qc)) (v : Qc) :
  Some v ∈ xs →
  ∃ lo, series_min xs = Some lo ∧ Some lo ∈ xs ∧
        ∀ x, Some x ∈ xs → (lo ≤ x)%Qc.
Proof.
  intros Hv%elem_of_dropna. unfold series_min.
  destruct (dropna xs) as [|a vs] eqn:Hd; [by apply elem_of_nil in Hv|].
  destruct (foldr_Qc_min a vs) as [Hin Hle].
  eexists. split; [done|]. split.
  - apply elem_of_dropna. by rewrite Hd.
  - intros x Hx%elem_of_dropna. apply Hle. by rewrite <- Hd.
Qed.



Lemma rmse_bounds (f : list row) (r : row) (v : Qc) :
  r ∈ f → RMSE r = Some v →
  ∃ lo hi,
    rmse_min f = Some lo ∧ rmse_max f = Some hi ∧
    (lo ≤ v)%Qc ∧ (v ≤ hi)%Qc ∧
    (∃ r1, r1 ∈ f ∧ RMSE r1 = Some lo) ∧
    (∃ r2, r2 ∈ f ∧ RMSE r2 = Some hi) ∧
    ∀ r' v', r' ∈ f → RMSE r' = Some v' → (lo ≤ v')%Qc ∧ (v' ≤ hi)%Qc.
Proof.
  intros Hr Hv.
  assert (Some v ∈ RMSE <$> f) as Hin.
  { apply list_elem_of_fmap. by exists r. }
  destruct (series_min_spec _ _ Hin) as (lo & Hlo & Hloin & Hlole).
  destruct (series_max_spec _ _ Hin) as (hi & Hhi & Hhiin & Hhile).
  exists lo, hi. unfold rmse_min, rmse_max.
  split; [done|]. split; [done|].
  split; [by apply Hlole|]. split; [by apply Hhile|].
  apply list_elem_of_fmap in Hloin as (r1 & Hr1 & Hr1in).
  apply list_elem_of_fmap in Hhiin as (r2 & Hr2 & Hr2in).
  split; [by exists r1|]. split; [by exists r2|].
  intros r' v' Hr' Hv'.
  assert (Some v' ∈ RMSE <$> f) as Hin'.
  { apply list_elem_of_fmap. by exists r'. }
  split; [by apply Hlole|by apply Hhile].
Qed.

(** X13.  When some row of the frame has an RMSE, [rmse_min] and
    [rmse_max] are values: each is the RMSE of a row of the frame, and every
    RMSE of the frame lies between them. *)
Theorem rmse_min_max_bounds (filtered : list row) (r : row) (v : Qc) :
  r ∈ filtered →
  RMSE r = Some v →
  ∃ lo hi,
    rmse_min filtered = Some lo ∧ rmse_max filtered = Some hi ∧
    (lo ≤ v)%Qc ∧ (v ≤ hi)%Qc ∧
    (∃ r1, r1 ∈ filtered ∧ RMSE r1 = Some lo) ∧
    (∃ r2, r2 ∈ filtered ∧ RMSE r2 = Some hi).
Proof.
  intros Hr Hv.
  destruct (rmse_bounds _ _ _ Hr Hv)
    as (lo & hi & ? & ? & ? & ? & ? & ? & _).
  by exists lo, hi.
Qed.

Lemma rmse_min_max_bounds_witness :
  ∃ lo hi,
    rmse_min (categorical_row <$> [alg1_low; alg2_high; alg1_ultra])
    = Some lo ∧
    rmse_max (categorical_row <$> [alg1_low; alg2_high; alg1_ultra])
    = Some hi ∧
    (lo ≤ Q2Qc (3 # 2))%Qc ∧ (Q2Qc (3 # 2) ≤ hi)%Qc.
Proof.
  destruct (rmse_min_max_bounds
              (categorical_row <$> [alg1_low; alg2_high; alg1_ultra])
              (categorical_row alg1_low) (Q2Qc (3 # 2)))
    as (lo & hi & Hlo & Hhi & Hle & Hge & _).
  - by left.
  - reflexivity.
  - by exists lo, hi.
Defined.









(** X15.  On a frame that is not empty the y-axis range of a metric ends
    at eleven tenths of the largest value of the metric, so every value of
    the metric that is not negative lies inside the range. *)
Theorem range_y_fits (filtered : list row) (m : metric) (r : row)
    (v : Qc) :
  r ∈ filtered →
  column m r = Some v →
  (0 ≤ v)%Qc →
  ∃ hi,
    series_max (column m <$> filtered) = Some hi ∧
    range_y filtered m = (0%Qc, Some (Some (hi * Q2Qc (11 # 10))%Qc)) ∧
    (v ≤ hi * Q2Qc (11 # 10))%Qc.
Proof.
  intros Hr Hv Hpos.
  assert (Some v ∈ column m <$> filtered) as Hin.
  { apply list_elem_of_fmap. by exists r. }
  destruct (series_max_spec _ _ Hin) as (hi & Hhi & _ & Hle).
  exists hi. split; [done|]. split.
  - unfold range_y.
    destruct filtered as [|r0 f]; [by apply elem_of_nil in Hr|].
    change (empty (r0 :: f)) with false. cbn [negb].
    change (map (column m) (r0 :: f)) with (column m <$> r0 :: f).
    by rewrite Hhi.
  - assert (v ≤ hi)%Qc as Hvhi by by apply Hle.
    assert (0 ≤ hi)%Qc as Hhipos by by etrans.
    etrans; [exact Hvhi|].
    replace (hi * Q2Qc (11 # 10))%Qc with (hi + hi * Q2Qc (1 # 10))%Qc.
    + rewrite <- (Qcplus_0_r hi) at 1. apply Qcplus_le_compat; [done|].
      rewrite <- (Qcmult_0_r hi) at 1.
      apply Qcmult_le_mono_nonneg_l; [done|].
      by apply (bool_decide_unpack _).
    + replace (Q2Qc (11 # 10)) with (1 + Q2Qc (1 # 10))%Qc
        by by apply (bool_decide_unpack _).
      ring.
Qed.

Lemma range_y_fits_witness :
  ∃ hi,
    series_max (column mRMSE <$> (categorical_row <$> [alg1_low; alg2_high]))
    = Some hi ∧
    range_y (categorical_row <$> [alg1_low; alg2_high]) mRMSE
    = (0%Qc, Some (Some (hi * Q2Qc (11 # 10))%Qc)) ∧
    (Q2Qc (1 # 2) ≤ hi * Q2Qc (11 # 10))%Qc.
Proof.
  apply (range_y_fits (categorical_row <$> [alg1_low; alg2_high]) mRMSE
           (categorical_row alg2_high)).
  - by right; left.
  - reflexivity.
  - by apply (bool_decide_unpack _).
Defined.

(** ** Highlighting *)

Lemma highlight_rmse_no_number (lo hi : option Qc) (c : cell) :
  (∀ v, c ≠ Number (Some v)) → highlight_rmse lo hi c = "".
Proof.
  intros Hc. unfold highlight_rmse, cell_eq_float.
  destruct c as [s|s|[v|]]; try done. by destruct (Hc v).
Qed.

Lemma highlight_rmse_number (lo hi v : Qc) :
  highlight_rmse (Some lo) (Some hi) (Number (Some v))
  = if decide (v = lo) then "background-color: yellow"
    else if decide (v = hi) then "background-color: orange"
    else "".
Proof.
  unfold highlight_rmse, cell_eq_float.
  destruct (decide (v = lo)) as [Hlo|Hlo].
  - by rewrite bool_decide_eq_true_2.
  - rewrite bool_decide_eq_false_2 by done.
    destruct (decide (v = hi)) as [Hhi|Hhi].
    + by rewrite bool_decide_eq_true_2.
    + by rewrite bool_decide_eq_false_2.
Qed.

(** X16.  In the styled frame, the RMSE cell of a row is yellow exactly
    when its value is the smallest RMSE, and orange exactly when it is the
    largest and not the smallest; when the filtered frame has an RMSE at
    all, the RMSE cell of some row is yellow. *)
Theorem highlight_rmse_extremes (filtered : list row) (r : row) (v : Qc) :
  r ∈ filtered →
  RMSE r = Some v →
  ∃ lo hi,
    rmse_min filtered = Some lo ∧ rmse_max filtered = Some hi ∧
    (highlight_rmse (Some lo) (Some hi) (Number (Some v))
     = "background-color: yellow" ↔ v = lo) ∧
    (highlight_rmse (Some lo) (Some hi) (Number (Some v))
     = "background-color: orange" ↔ v = hi ∧ v ≠ lo) ∧
    ∃ r1, r1 ∈ filtered ∧
          highlight_rmse (rmse_min filtered) (rmse_max filtered)
            (Number (RMSE r1))
          = "background-color: yellow".
Proof.
  intros Hr Hv.
  destruct (rmse_bounds _ _ _ Hr Hv)
    as (lo & hi & Hlo & Hhi & _ & _ & (r1 & Hr1 & Hv1) & _ & _).
  exists lo, hi. split; [done|]. split; [done|].
  rewrite highlight_rmse_number. split; [|split].
  - destruct (decide (v = lo)); [done|].
    by destruct (decide (v = hi)).
  - destruct (decide (v = lo)); [naive_solver|].
    destruct (decide (v = hi)); naive_solver.
  - exists r1. split; [done|].
    rewrite Hlo, Hhi, Hv1, highlight_rmse_number. by rewrite decide_True.
Qed.

Lemma highlight_rmse_extremes_witness :
  ∃ lo hi,
    rmse_min (categorical_row <$> [alg1_low; alg2_high]) = Some lo ∧
    rmse_max (categorical_row <$> [alg1_low; alg2_high]) = Some hi ∧
    (highlight_rmse (Some lo) (Some hi) (Number (Some (Q2Qc (3 # 2))))
     = "background-color: yellow" ↔ Q2Qc (3 # 2) = lo) ∧
    (highlight_rmse (Some lo) (Some hi) (Number (Some (Q2Qc (3 # 2))))
     = "background-color: orange" ↔ Q2Qc (3 # 2) = hi ∧ Q2Qc (3 # 2) ≠ lo).
Proof.
  destruct (highlight_rmse_extremes
              (categorical_row <$> [alg1_low; alg2_high])
              (categorical_row alg1_low) (Q2Qc (3 # 2)))
    as (lo & hi & Hlo & Hhi & Hy & Ho & _).
  - by left.
  - reflexivity.
  - by exists lo, hi.
Defined.



(** ** The table with previews *)

Lemma lex_inv {A : Type} (R1 R2 : relation A) (x y : A) :
  lex R1 R2 x y → R1 x y ∧ (R1 y x → R2 x y).
Proof. intros [[H1 Hn]|(H1 & H1' & H2)]; split; try done. Qed.

Lemma by_sorted_df_keys_in_table_order (r1 r2 : row) :
  by_sorted_df_keys r1 r2 → in_table_order r1 r2.
Proof.
  unfold by_sorted_df_keys, in_table_order, by_key.
  intros [Ha Hrest]%lex_inv. split; [done|]. intros Haeq.
  assert (String.le (Algorithm r2) (Algorithm r1)) as Ha' by by rewrite Haeq.
  apply Hrest, lex_inv in Ha' as [Ht Hrest']. split; [done|]. intros Hteq.
  assert (String.le (Tag r2) (Tag r1)) as Ht' by by rewrite Hteq.
  apply Hrest', lex_inv in Ht' as [Hv Hrest'']. split; [done|].
  intros Hveq. apply Hrest''. by rewrite Hveq.
Qed.

(** X18.  The table view holds the rows of the filtered frame, in the
    order of Algorithm, then Tag, then Video, then position of the Subtag
    with NaN last. *)
Theorem sorted_df_order (filtered : list row) :
  sorted_df filtered ≡ₚ filtered ∧
  ∀ i j r1 r2,
    sorted_df filtered !! i = Some r1 →
    sorted_df filtered !! j = Some r2 →
    (i < j)%nat →
    in_table_order r1 r2.
Proof.
  split; [apply sort_values_Permutation|].
  intros i j r1 r2 H1 H2 Hij. apply by_sorted_df_keys_in_table_order.
  by eapply StronglySorted_lookup; [apply sorted_df_StronglySorted|..].
Qed.

Lemma sorted_df_order_witness :
  Algorithm <$> sorted_df (categorical_row <$> [alg2_high; alg1_ultra; alg1_low])
  = ["ALG1"; "ALG1"; "ALG2"] ∧
  in_table_order (categorical_row alg1_low) (categorical_row alg2_high).
Proof.
  split; [reflexivity|].
  destruct (sorted_df_order
              (categorical_row <$> [alg2_high; alg1_ultra; alg1_low]))
    as [_ Horder].
  apply (Horder 0%nat 2%nat); [reflexivity|reflexivity|lia].
Defined.

Lemma get_preview_image_fs (p : string) (fs : filesystem) :
  (get_preview_image p fs).2 = fs.
Proof.
  unfold get_preview_image. by destruct (os_path_exists fs _).
Qed.

Lemma get_preview_image_Some (p img_path : string) (fs : filesystem) :
  (get_preview_image p fs).1 = Some img_path →
  img_path = os_path_join "plots_previews" (p ++ ".png") ∧
  img_path ∈ fs ∧ os_path_exists fs img_path = true.
Proof.
  unfold get_preview_image.
  destruct (os_path_exists fs _) eqn:He; simpl; [|done].
  intros [= <-]. split; [done|]. split; [|done].
  unfold os_path_exists in He. by apply bool_decide_eq_true in He.
Qed.

Lemma add_Preview_spec (sorted : list row) (fs : filesystem) :
  add_Preview sorted fs
  = ((λ r, (r, (get_preview_image (Plot_PDF r) fs).1)) <$> sorted, fs).
Proof.
  induction sorted as [|r rest IH]; [done|]. simpl.
  pose proof (get_preview_image_fs (Plot_PDF r) fs) as Hfs.
  destruct (get_preview_image (Plot_PDF r) fs) as [img fs1].
  simpl in Hfs. subst fs1. by rewrite IH.
Qed.

Lemma os_path_join_nonempty (b : string) :
  os_path_join "plots_previews" (b ++ ".png") ≠ "".
Proof.
  unfold os_path_join.
  destruct (String.prefix "/" (b ++ ".png")) eqn:Hp.
  - by destruct b.
  - done.
Qed.

(** X19.  Building the Preview column leaves the file system as it was and
    keeps the rows and their order; every preview of the table is a path
    that exists, and the grid writes "No Preview" exactly for the rows that
    have none. *)
Theorem display_df_previews (sorted : list row) (fs fs' : filesystem)
    (display : list Display.row) :
  display_df sorted fs = (display, fs') →
  fs' = fs ∧
  Display.Algorithm <$> display = Algorithm <$> sorted ∧
  Display.Video <$> display = Video <$> sorted ∧
  ∀ d, d ∈ display →
    (∀ img_path, Display.Preview d = Some img_path → img_path ∈ fs) ∧
    ∀ (image : Type) (Image_open : string → result image),
      St_write "No Preview" ∈ render_row Image_open fs d
      ↔ Display.Preview d = None.
Proof.
  unfold display_df. rewrite add_Preview_spec. intros [= <- <-].
  split; [done|]. rewrite <- !list_fmap_compose.
  split; [done|]. split; [done|].
  intros d (r & -> & Hr)%list_elem_of_fmap. simpl.
  destruct (get_preview_image (Plot_PDF r) fs).1 as [img_path|] eqn:Hp.
  - apply get_preview_image_Some in Hp as (Hpath & Hin & Hex).
    split; [by intros ? [= <-]|]. intros image Image_open.
    unfold render_row. simpl. rewrite Hex.
    rewrite bool_decide_eq_true_2
      by (rewrite Hpath; apply os_path_join_nonempty).
    simpl. split; [|done].
    destruct (Image_open img_path) as [img|e];
      intros Hw; repeat (apply elem_of_cons in Hw as [Hw|Hw]; [done|]);
      by apply elem_of_nil in Hw.
  - split; [done|]. intros image Image_open. unfold render_row. simpl.
    split; [done|]. intros _. by right; left.
Qed.

Lemma display_df_previews_witness :
  (display_df (categorical_row <$> [alg1_low; alg2_high])
     {["plots_previews/a.pdf.png"]}).2
  = {["plots_previews/a.pdf.png"]} ∧
  Display.Preview
  <$> (display_df (categorical_row <$> [alg1_low; alg2_high])
         {["plots_previews/a.pdf.png"]}).1
  = [Some "plots_previews/a.pdf.png"; None].
Proof.
  split; [|by vm_compute].
  destruct (display_df_previews (categorical_row <$> [alg1_low; alg2_high])
              {["plots_previews/a.pdf.png"]}
              (display_df (categorical_row <$> [alg1_low; alg2_high])
                 {["plots_previews/a.pdf.png"]}).2
              (display_df (categorical_row <$> [alg1_low; alg2_high])
                 {["plots_previews/a.pdf.png"]}).1)
    as [Hfs _].
  - by destruct (display_df _ _).
  - exact Hfs.
Defined.

Lemma str_in_slash_app (a b : string) :
  str_in "/" (a ++ b) = str_in "/" a || str_in "/" b.
Proof.
  induction a as [|c a IH].
  - by change ("" ++ b) with b.
  - change (String c a ++ b) with (String c (a ++ b)).
    rewrite !str_in_slash_cons, IH. by rewrite orb_assoc.
Qed.

Lemma basename_after_slash (a q : string) :
  no_slash q → basename (a ++ "/" ++ q) = q.
Proof.
  intros Hq. induction a as [|c a IH].
  - change ("" ++ "/" ++ q) with (String "/" q). simpl. by rewrite Hq.
  - change (String c a ++ "/" ++ q) with (String c (a ++ "/" ++ q)).
    cbn [basename].
    rewrite str_in_slash_app.
    change ("/" ++ q) with (String "/" q).
    rewrite (str_in_slash_cons "/" q), bool_decide_eq_true_2 by done.
    by rewrite orb_true_r.
Qed.

(** X20.  For a plot reference without a slash, the download button of the
    grid offers the preview under the name of the reference followed by
    ".png": the basename of the path [get_preview_image] returned. *)
Theorem download_file_name (plot : string) (fs : filesystem)
    (img_path : string) :
  no_slash plot →
  (get_preview_image plot fs).1 = Some img_path →
  basename img_path = plot ++ ".png".
Proof.
  intros Hplot (-> & _ & _)%get_preview_image_Some.
  rewrite os_path_join_previews by done. unfold preview_path.
  change ("plots_previews/" ++ plot ++ ".png")
    with ("plots_previews" ++ "/" ++ plot ++ ".png").
  apply basename_after_slash. unfold no_slash in *.
  by rewrite str_in_slash_app, Hplot.
Qed.

Lemma download_file_name_witness :
  basename "plots_previews/a.pdf.png" = "a.pdf.png".
Proof.
  apply (download_file_name "a.pdf" {["plots_previews/a.pdf.png"]}).
  - reflexivity.
  - by vm_compute.
Defined.



(** ** The grid of three columns *)

Lemma place_from_length {A : Type} (i : nat) (blocks : list A)
    (columns : list (list A)) :
  length (place_from i blocks columns) = length columns.
Proof.
  revert i columns. induction blocks as [|b rest IH]; intros i columns.
  - done.
  - simpl. by rewrite IH, length_alter.
Qed.

Lemma place_from_lookup_old {A : Type} (i : nat) (blocks : list A)
    (columns : list (list A)) (k n : nat) (c : list A) (x : A) :
  columns !! k = Some c → c !! n = Some x →
  ∃ c', place_from i blocks columns !! k = Some c' ∧ c' !! n = Some x.
Proof.
  revert i columns c. induction blocks as [|b rest IH];
    intros i columns c Hk Hn.
  - by exists c.
  - simpl. destruct (decide (col_idx i = k)) as [<-|Hne].
    + eapply (IH _ _ (c ++ [b])%list).
      * by rewrite list_lookup_alter_eq, Hk.
      * by apply lookup_app_l_Some.
    + eapply IH; [|done]. by rewrite list_lookup_alter_ne.
Qed.

(** The number of indices below [i] that go to column [k]. *)
Lemma col_count_same (i k : nat) :
  (k < 3)%nat → col_idx i = k →
  ((S i + 2 - k) / 3 = S ((i + 2 - k) / 3))%nat ∧
  ((i + 2 - k) / 3 = i / 3)%nat.
Proof.
  unfold col_idx. intros Hk Hi.
  pose proof (Nat.div_mod_eq i 3) as Hdiv.
  assert (i + 2 - k = (i / 3) * 3 + 2)%nat as -> by lia.
  assert (S i + 2 - k = (S (i / 3)) * 3 + 0)%nat as -> by lia.
  rewrite !Nat.div_add_l by lia. simpl. lia.
Qed.

Lemma col_count_other (i k : nat) :
  (k < 3)%nat → col_idx i ≠ k →
  ((S i + 2 - k) / 3 = (i + 2 - k) / 3)%nat.
Proof.
  unfold col_idx. intros Hk Hi.
  pose proof (Nat.div_mod_eq i 3) as Hdiv.
  pose proof (Nat.mod_upper_bound i 3) as Hlt.
  destruct (decide (i `mod` 3 < k)%nat) as [Hlow|Hhigh].
  - assert (i / 3 ≠ 0 ∨ i / 3 = 0)%nat as [Hq|Hq] by lia.
    + assert (i + 2 - k = (i / 3 - 1) * 3 + (i `mod` 3 + 5 - k))%nat
        as -> by lia.
      assert (S i + 2 - k = (i / 3 - 1) * 3 + (i `mod` 3 + 6 - k))%nat
        as -> by lia.
      rewrite !Nat.div_add_l by lia. f_equal.
      assert (i `mod` 3 = 0 ∧ (k = 1 ∨ k = 2) ∨ i `mod` 3 = 1 ∧ k = 2)%nat
        as [[-> [-> | ->]]|[-> ->]] by lia; done.
    + assert (i `mod` 3 = 0 ∧ (k = 1 ∨ k = 2) ∨ i `mod` 3 = 1 ∧ k = 2)%nat
        as Hcases by lia.
      assert (i = i `mod` 3) as -> by lia.
      destruct Hcases as [[-> [-> | ->]]|[-> ->]]; done.
  - assert (i + 2 - k = (i / 3) * 3 + (i `mod` 3 + 2 - k))%nat as -> by lia.
    assert (S i + 2 - k = (i / 3) * 3 + (i `mod` 3 + 3 - k))%nat
      as -> by lia.
    rewrite !Nat.div_add_l by lia. f_equal.
    assert (i `mod` 3 = 1 ∧ k = 0 ∨ i `mod` 3 = 2 ∧ (k = 0 ∨ k = 1))%nat
      as [[-> ->]|[-> [-> | ->]]] by lia; done.
Qed.

Lemma place_from_new {A : Type} (blocks : list A) (i : nat)
    (columns : list (list A)) (j : nat) (b : A) :
  length columns = 3%nat →
  (∀ k c, columns !! k = Some c → length c = ((i + 2 - k) / 3)%nat) →
  blocks !! j = Some b →
  ∃ c, place_from i blocks columns !! col_idx (i + j) = Some c ∧
       c !! ((i + j) / 3)%nat = Some b.
Proof.
  revert i columns j.
  induction blocks as [|x rest IH]; intros i columns j Hlen Hcols Hj.
  - by rewrite lookup_nil in Hj.
  - assert (col_idx i < 3)%nat as Hk by (by apply Nat.mod_upper_bound).
    destruct (lookup_lt_is_Some_2 columns (col_idx i)) as [c Hc];
      [by rewrite Hlen|].
    destruct j as [|j]; simpl in Hj.
    + injection Hj as ->. rewrite Nat.add_0_r. cbn [place_from].
      eapply (place_from_lookup_old _ _ _ _ _ (c ++ [b])%list).
      * by rewrite list_lookup_alter_eq, Hc.
      * destruct (col_count_same i (col_idx i) Hk eq_refl) as [_ <-].
        rewrite <- (Hcols _ _ Hc). apply list_lookup_middle. done.
    + replace (i + S j)%nat with (S i + j)%nat by lia. cbn [place_from].
      apply IH; [by rewrite length_alter| |done].
      intros k c' Hc'.
      assert (k < 3)%nat as Hk3.
      { apply lookup_lt_Some in Hc'. by rewrite length_alter, Hlen in Hc'. }
      destruct (decide (col_idx i = k)) as [<-|Hne].
      * rewrite list_lookup_alter_eq, Hc in Hc'. injection Hc' as <-.
        rewrite length_app, (Hcols _ _ Hc). cbn [length].
        destruct (col_count_same i (col_idx i) Hk eq_refl) as [-> _]. lia.
      * rewrite list_lookup_alter_ne in Hc' by done.
        rewrite (Hcols _ _ Hc'). symmetry. by apply col_count_other.
Qed.

Lemma length_concat_alter {A : Type} (columns : list (list A)) (k : nat)
    (b : A) :
  (k < length columns)%nat →
  length (concat (alter (λ c, (c ++ [b])%list) k columns))
  = S (length (concat columns)).
Proof.
  revert k. induction columns as [|c columns IH]; intros k Hk; simpl in Hk.
  - lia.
  - destruct k as [|k].
    + change (alter (λ c0, (c0 ++ [b])%list) 0%nat (c :: columns))
        with ((c ++ [b])%list :: columns).
      rewrite !concat_cons, !length_app. simpl. lia.
    + change (alter (λ c0, (c0 ++ [b])%list) (S k) (c :: columns))
        with (c :: alter (λ c0, (c0 ++ [b])%list) k columns).
      rewrite !concat_cons, !length_app, IH by lia. lia.
Qed.

Lemma place_from_total {A : Type} (blocks : list A) (i : nat)
    (columns : list (list A)) :
  length columns = 3%nat →
  length (concat (place_from i blocks columns))
  = (length (concat columns) + length blocks)%nat.
Proof.
  revert i columns. induction blocks as [|b rest IH]; intros i columns Hlen.
  - simpl. lia.
  - simpl. rewrite IH by by rewrite length_alter.
    rewrite length_concat_alter; [lia|].
    rewrite Hlen. by apply Nat.mod_upper_bound.
Qed.

(** X22.  The grid has three columns; the block of row [i] is the entry
    [i / 3] of column [i mod 3], and the columns hold nothing but the
    blocks of the rows. *)
Theorem place_position {A : Type} (blocks : list A) (i : nat) (b : A) :
  blocks !! i = Some b →
  length (place blocks) = 3%nat ∧
  length (concat (place blocks)) = length blocks ∧
  ∃ c, place blocks !! (i `mod` 3)%nat = Some c ∧
       c !! (i / 3)%nat = Some b.
Proof.
  intros Hi. unfold place.
  split; [by rewrite place_from_length|].
  split; [by rewrite place_from_total|].
  apply (place_from_new blocks 0 [[]; []; []] i b); [done| |done].
  intros [|[|[|k]]] c [= <-]; done.
Qed.

Lemma place_position_witness :
  place ["r0"; "r1"; "r2"; "r3"; "r4"]
  = [["r0"; "r3"]; ["r1"; "r4"]; ["r2"]] ∧
  ∃ c, place ["r0"; "r1"; "r2"; "r3"; "r4"] !! (4 `mod` 3)%nat = Some c ∧
       c !! (4 / 3)%nat = Some "r4".
Proof.
  split; [reflexivity|].
  apply (place_position ["r0"; "r1"; "r2"; "r3"; "r4"] 4 "r4").
  reflexivity.
Defined.

(** ** The converter: messages, frame, repeated runs *)

Section ConverterRuns.
Context {image : Type}.
Variable convert_from_path : string → Z → Z → Z → result (list image).




Lemma foldl_write_png_frame (names : list string) (m : gmap string image)
    (k : string) :
  foldl (λ m n, write_png convert_from_path n m) m names !! k = m !! k ∨
  ∃ name img,
    name ∈ names ∧ k = output_path name ∧
    first_page convert_from_path name = Some img ∧
    foldl (λ m n, write_png convert_from_path n m) m names !! k = Some img.
Proof.
  revert m. induction names as [|n names IH]; intros m; [by left|].
  simpl. destruct (IH (write_png convert_from_path n m))
    as [Hsame|(name & img & Hin & Hk & Himg & Hlook)].
  - rewrite Hsame. unfold write_png.
    destruct (first_page convert_from_path n) as [img|] eqn:Himg;
      [|by left].
    destruct (decide (output_path n = k)) as [<-|Hne].
    + right. exists n, img. rewrite lookup_insert_eq.
      split; [by left|done].
    + left. by rewrite lookup_insert_ne.
  - right. exists name, img. split; [by right|done].
Qed.

(** X24.  The converter changes no file except to write the first page of
    a listed ".pdf" source at its output path: a path whose content differs
    after the run is the output path of such a source and holds its image,
    and every file present before the run is present after it. *)
Theorem convert_all_frame (listing : list string) (w : @world image)
    (k : string) :
  (files (convert_all convert_from_path listing w) !! k = files w !! k ∨
   ∃ name img,
     name ∈ listing ∧ ends_with ".pdf" name = true ∧
     k = output_path name ∧
     first_page convert_from_path name = Some img ∧
     files (convert_all convert_from_path listing w) !! k = Some img) ∧
  (is_Some (files w !! k) →
   is_Some (files (convert_all convert_from_path listing w) !! k)).
Proof.
  unfold convert_all. rewrite files_foldl.
  destruct (foldl_write_png_frame (glob_pdf listing) (files w) k)
    as [Hsame|(name & img & Hin & Hk & Himg & Hlook)].
  - split; [by left|]. by rewrite Hsame.
  - apply list_elem_of_filter in Hin as [Hpdf Hin].
    split; [right; by exists name, img|]. rewrite Hlook. by eexists.
Qed.

Lemma write_png_idemp (n : string) (m : gmap string image) :
  write_png convert_from_path n (write_png convert_from_path n m)
  = write_png convert_from_path n m.
Proof.
  unfold write_png. destruct (first_page convert_from_path n); [|done].
  apply insert_insert_eq.
Qed.

Lemma foldl_write_png_comm (names : list string) (a : string)
    (m : gmap string image) :
  Forall filename names → filename a →
  foldl (λ m n, write_png convert_from_path n m)
    (write_png convert_from_path a m) names
  = write_png convert_from_path a
      (foldl (λ m n, write_png convert_from_path n m) m names).
Proof.
  intros Hall Ha. revert m.
  induction Hall as [|n names Hn _ IH]; intros m; [done|].
  simpl. by rewrite <- IH, (write_png_comm _ n a).
Qed.

Lemma foldl_write_png_idemp (names : list string) (m : gmap string image) :
  Forall filename names →
  foldl (λ m n, write_png convert_from_path n m)
    (foldl (λ m n, write_png convert_from_path n m) m names) names
  = foldl (λ m n, write_png convert_from_path n m) m names.
Proof.
  intros Hall. revert m.
  induction Hall as [|a names Ha Hall IH]; intros m; [done|].
  simpl. rewrite (foldl_write_png_comm names a m) by done.
  rewrite write_png_idemp.
  rewrite (foldl_write_png_comm names a) by done.
  rewrite IH. by rewrite <- foldl_write_png_comm.
Qed.

(** X25.  Running the converter a second time over the same directory
    changes no file: the files after two runs are the files after one. *)
Theorem convert_all_idempotent (listing : list string) (w : @world image) :
  Forall filename listing →
  files (convert_all convert_from_path listing
           (convert_all convert_from_path listing w))
  = files (convert_all convert_from_path listing w).
Proof.
  intros Hall. unfold convert_all. rewrite !files_foldl.
  by apply foldl_write_png_idemp, glob_pdf_filename.
Qed.

Lemma glob_pdf_none (listing : list string) :
  Forall (λ name, ends_with ".pdf" name = false) listing →
  glob_pdf listing = [].
Proof.
  unfold glob_pdf. induction 1 as [|name listing Hname _ IH]; [done|].
  rewrite filter_cons_False; [done|]. by rewrite Hname.
Qed.

(** X26.  A directory without a name ending in ".pdf" (lower case) leaves
    the world as it was: nothing is written and nothing is printed. *)
Theorem convert_all_no_pdf (listing : list string) (w : @world image) :
  Forall (λ name, ends_with ".pdf" name = false) listing →
  convert_all convert_from_path listing w = w.
Proof.
  intros Hall. unfold convert_all. by rewrite glob_pdf_none.
Qed.
End ConverterRuns.

Lemma convert_all_idempotent_witness :
  files (convert_all example_rasterizer ["a.pdf"; "bad.pdf"; "b.pdf"]
           (convert_all example_rasterizer ["a.pdf"; "bad.pdf"; "b.pdf"]
              (mkWorld ∅ [])))
  = files (convert_all example_rasterizer ["a.pdf"; "bad.pdf"; "b.pdf"]
             (mkWorld ∅ [])).
Proof.
  apply convert_all_idempotent. repeat constructor; done.
Defined.

Lemma convert_all_no_pdf_witness :
  convert_all example_rasterizer ["notes.txt"; "PLOT.PDF"; "a.pdf.png"]
    (mkWorld ∅ [])
  = mkWorld ∅ [].
Proof.
  apply convert_all_no_pdf. repeat constructor; done.
Defined.

(** ** Paths made of proper names *)

Lemma split_nonempty (s : string) : split "/" s ≠ [].
Proof.
  destruct s as [|c s]; [done|]. simpl.
  destruct (Ascii.eqb c "/"); [done|]. by destruct (split "/" s).
Qed.

Lemma split_app_slash (a b : string) :
  split "/" (a ++ "/" ++ b) = (split "/" a ++ split "/" b)%list.
Proof.
  induction a as [|c a IH].
  - done.
  - change (String c a ++ "/" ++ b) with (String c (a ++ "/" ++ b)).
    cbn [split]. rewrite IH.
    destruct (Ascii.eqb c "/"); [done|].
    pose proof (split_nonempty a) as Hne.
    by destruct (split "/" a).
Qed.

Lemma split_no_slash_id (c : string) : no_slash c → split "/" c = [c].
Proof.
  unfold no_slash. induction c as [|x c IH]; [done|].
  rewrite str_in_slash_cons. intros [Hx Hc]%orb_false_elim.
  apply bool_decide_eq_false in Hx. simpl.
  destruct (Ascii.eqb_spec x "/") as [->|_]; [done|]. by rewrite IH.
Qed.

Lemma sep_join_cons (a b : string) (l : list string) :
  sep_join "/" (a :: b :: l) = a ++ "/" ++ sep_join "/" (b :: l).
Proof. done. Qed.

Lemma split_sep_join (cs : list string) :
  Forall no_slash cs → cs ≠ [] → split "/" (sep_join "/" cs) = cs.
Proof.
  induction 1 as [|c cs Hc Hcs IH]; [done|]. intros _.
  destruct cs as [|c' cs]; [by apply split_no_slash_id|].
  rewrite sep_join_cons, split_app_slash, split_no_slash_id by done.
  by rewrite IH.
Qed.

Lemma sep_join_app (l1 l2 : list string) :
  l1 ≠ [] → l2 ≠ [] →
  sep_join "/" (l1 ++ l2) = sep_join "/" l1 ++ "/" ++ sep_join "/" l2.
Proof.
  intros H1 H2. induction l1 as [|a l1 IH]; [done|].
  destruct l1 as [|b l1].
  - destruct l2 as [|c l2]; done.
  - change ((a :: b :: l1) ++ l2)%list with (a :: b :: (l1 ++ l2))%list.
    rewrite !sep_join_cons.
    change (b :: (l1 ++ l2))%list with ((b :: l1) ++ l2)%list.
    rewrite IH by done. by rewrite <- !append_assoc.
Qed.

Lemma proper_name_no_prefix_slash (c : string) (s : string) :
  proper_name c → String.prefix "/" (c ++ s) = false.
Proof.
  intros (Hne & Hns & _). destruct c as [|x c]; [done|].
  change (String x c ++ s) with (String x (c ++ s)).
  rewrite prefix_slash_cons. unfold no_slash in Hns.
  rewrite str_in_slash_cons in Hns. by apply orb_false_elim in Hns as [-> _].
Qed.

Lemma sep_join_proper_prefix (cs : list string) (s : string) :
  Forall proper_name cs → cs ≠ [] →
  String.prefix "/" (sep_join "/" cs ++ s) = false.
Proof.
  intros Hall Hne. destruct Hall as [|c cs Hc Hcs]; [done|].
  destruct cs as [|c' cs].
  - by apply proper_name_no_prefix_slash.
  - rewrite sep_join_cons, append_assoc.
    by apply proper_name_no_prefix_slash.
Qed.

Lemma append_nil_r (s : string) : s ++ "" = s.
Proof.
  induction s as [|c s IH]; [done|].
  change (String c (s ++ "") = String c s). by rewrite IH.
Qed.

(** The last character. *)
Lemma rev_app_append (s1 s2 : string) :
  String.rev_app s1 s2 = String.rev s1 ++ s2.
Proof.
  unfold String.rev. revert s2. induction s1 as [|c s1 IH]; intros s2.
  - done.
  - simpl. rewrite (IH (String c s2)), (IH (String c "")).
    by rewrite append_assoc.
Qed.

Lemma rev_append (s1 s2 : string) :
  String.rev (s1 ++ s2) = String.rev s2 ++ String.rev s1.
Proof.
  induction s1 as [|c s1 IH].
  - change ("" ++ s2) with s2. induction (String.rev s2) as [|x r IHr].
    + done.
    + change (String x r ++ String.rev "") with (String x (r ++ String.rev "")).
      by rewrite <- IHr.
  - change (String c s1 ++ s2) with (String c (s1 ++ s2)).
    unfold String.rev at 1 3. simpl.
    rewrite !rev_app_append, IH. by rewrite append_assoc.
Qed.

Lemma ends_slash_append (a c : string) :
  c ≠ "" → no_slash c → String.prefix "/" (String.rev (a ++ c)) = false.
Proof.
  intros Hne Hns. rewrite rev_append.
  assert (String.rev c ≠ "" ∧ no_slash (String.rev c)) as [Hrne Hrns].
  { clear a. induction c as [|x c IH]; [done|].
    unfold String.rev. simpl. rewrite rev_app_append.
    unfold no_slash in *. rewrite str_in_slash_cons in Hns.
    apply orb_false_elim in Hns as [Hx Hc]. split.
    - by destruct (String.rev c).
    - rewrite str_in_slash_app, str_in_slash_cons, Hx.
      destruct c as [|y c]; [done|].
      destruct IH as [_ ->]; done. }
  destruct (String.rev c) as [|y r]; [done|].
  change (String y r ++ String.rev a) with (String y (r ++ String.rev a)).
  rewrite prefix_slash_cons. unfold no_slash in Hrns.
  rewrite str_in_slash_cons in Hrns.
  by apply orb_false_elim in Hrns as [-> _].
Qed.

Lemma sep_join_last (cs : list string) :
  Forall proper_name cs → cs ≠ [] →
  ∃ a c, sep_join "/" cs = a ++ c ∧ c ≠ "" ∧ no_slash c.
Proof.
  induction 1 as [|c cs Hc Hcs IH]; [done|]. intros _.
  destruct cs as [|c' cs].
  - exists "", c. destruct Hc as (? & ? & _). done.
  - destruct IH as (a & z & Heq & Hz); [done|].
    exists (c ++ "/" ++ a), z. rewrite sep_join_cons, Heq.
    by rewrite <- !append_assoc.
Qed.

Lemma os_path_join_proper (cs : list string) (pre name : string) :
  Forall proper_name cs → cs ≠ [] → proper_name name →
  os_path_join (pre ++ sep_join "/" cs) name
  = pre ++ sep_join "/" (cs ++ [name]).
Proof.
  intros Hcs Hne Hname. unfold os_path_join.
  rewrite <- (append_nil_r name) at 1.
  rewrite (proper_name_no_prefix_slash name "") by done.
  destruct (sep_join_last cs Hcs Hne) as (a & c & Heq & Hc & Hns).
  rewrite decide_False.
  - assert (String.prefix "/" (String.rev (pre ++ sep_join "/" cs)) = false)
      as ->.
    { rewrite Heq, <- append_assoc. by apply ends_slash_append. }
    rewrite sep_join_app by done. by rewrite append_assoc.
  - rewrite Heq. destruct pre, a, c; done.
Qed.

Lemma os_path_join_names (l : list string) (name : string) :
  Forall proper_name l → l ≠ [] → proper_name name →
  os_path_join (sep_join "/" l) name = sep_join "/" (l ++ [name]).
Proof. apply (os_path_join_proper l ""). Qed.

Lemma proper_name_no_slash (c : string) : proper_name c → no_slash c.
Proof. by intros (_ & ? & _). Qed.

Lemma Forall_proper_no_slash (cs : list string) :
  Forall proper_name cs → Forall no_slash cs.
Proof. intros H. eapply Forall_impl; [done|]. apply proper_name_no_slash. Qed.

Lemma os_path_join_relative (cs rs : list string) :
  Forall proper_name cs → Forall proper_name rs → rs ≠ [] →
  os_path_join ("/" ++ sep_join "/" cs) (sep_join "/" rs)
  = "/" ++ sep_join "/" (cs ++ rs).
Proof.
  intros Hcs Hrs Hne. destruct (decide (cs = [])) as [->|Hcne].
  - unfold os_path_join.
    rewrite <- (append_nil_r (sep_join "/" rs)) at 1.
    by rewrite sep_join_proper_prefix.
  - unfold os_path_join.
    rewrite <- (append_nil_r (sep_join "/" rs)) at 1.
    rewrite sep_join_proper_prefix by done.
    destruct (sep_join_last cs Hcs Hcne) as (a & c & Heq & Hc & Hns).
    rewrite decide_False by done.
    assert (String.prefix "/" (String.rev ("/" ++ sep_join "/" cs)) = false)
      as ->.
    { rewrite Heq, <- append_assoc. by apply ends_slash_append. }
    rewrite sep_join_app by done. by rewrite append_assoc.
Qed.

(** [normpath] leaves a path of proper names as it is. *)
Lemma normpath_loop_proper (n : nat) (comps acc : list string) :
  Forall proper_name comps →
  normpath_loop n comps acc = (acc ++ comps)%list.
Proof.
  intros H. revert acc.
  induction H as [|c comps (Hne & _ & Hdot & Hdd) _ IH]; intros acc.
  - by rewrite app_nil_r.
  - cbn [normpath_loop].
    rewrite bool_decide_eq_false_2 by (by intros [?|?]).
    rewrite (bool_decide_eq_true_2 (c ≠ "..")) by done.
    cbn [orb]. by rewrite IH, <- app_assoc.
Qed.

Lemma split_absolute (L : list string) :
  Forall proper_name L →
  filter (λ x, x ≠ "") (split "/" ("/" ++ sep_join "/" L)) = L
  ∧ normpath_loop 1 (split "/" ("/" ++ sep_join "/" L)) [] = L.
Proof.
  intros HL. destruct (decide (L = [])) as [->|Hne]; [done|].
  change ("/" ++ sep_join "/" L) with ("" ++ "/" ++ sep_join "/" L).
  rewrite split_app_slash, split_sep_join
    by auto using Forall_proper_no_slash.
  split.
  - change (filter (λ x, x ≠ "") L = L). apply filter_all.
    intros x Hx. rewrite Forall_forall in HL. by destruct (HL x Hx).
  - change (normpath_loop 1 L [] = L). by rewrite normpath_loop_proper.
Qed.

Lemma initial_slashes_absolute (L : list string) :
  Forall proper_name L → initial_slashes ("/" ++ sep_join "/" L) = 1%nat.
Proof.
  intros HL. unfold initial_slashes.
  change ("/" ++ sep_join "/" L) with (String "/" (sep_join "/" L)).
  assert (String.prefix "//" (String "/" (sep_join "/" L)) = false) as ->.
  { destruct (decide (L = [])) as [->|Hne]; [done|].
    pose proof (sep_join_proper_prefix L "" HL Hne) as Hp.
    rewrite append_nil_r in Hp.
    by destruct (sep_join "/" L) as [|x s]. }
  by rewrite prefix_slash_cons.
Qed.

Lemma normpath_absolute (L : list string) :
  Forall proper_name L →
  normpath ("/" ++ sep_join "/" L) = "/" ++ sep_join "/" L.
Proof.
  intros HL. unfold normpath.
  rewrite decide_False by done.
  rewrite initial_slashes_absolute by done.
  destruct (split_absolute L HL) as [_ ->].
  by rewrite decide_False.
Qed.

Lemma normpath_relative (L : list string) :
  Forall proper_name L → L ≠ [] →
  normpath (sep_join "/" L) = sep_join "/" L.
Proof.
  intros HL Hne. unfold normpath.
  pose proof (sep_join_proper_prefix L "" HL Hne) as Hp.
  rewrite append_nil_r in Hp.
  assert (sep_join "/" L ≠ "") as Hs.
  { destruct (sep_join_last L HL Hne) as (a & c & -> & Hc & _).
    by destruct a, c. }
  rewrite decide_False by done.
  unfold initial_slashes. rewrite Hp.
  rewrite split_sep_join, normpath_loop_proper
    by auto using Forall_proper_no_slash.
  change (slashes_string 0 ++ sep_join "/" ([] ++ L)%list)
    with (sep_join "/" L).
  by rewrite decide_False.
Qed.

Lemma components_abspath (cs rs : list string) :
  Forall proper_name cs → Forall proper_name rs → rs ≠ [] →
  components (abspath ("/" ++ sep_join "/" cs) (sep_join "/" rs))
  = (cs ++ rs)%list.
Proof.
  intros Hcs Hrs Hne. unfold abspath, components.
  pose proof (sep_join_proper_prefix rs "" Hrs Hne) as Hp.
  rewrite append_nil_r in Hp. rewrite Hp.
  rewrite os_path_join_relative, normpath_absolute
    by (done || by apply Forall_app).
  apply split_absolute. by apply Forall_app.
Qed.

Lemma common_prefix_app (l s : list string) :
  common_prefix l (l ++ s) = l.
Proof.
  induction l as [|x l IH]; [by destruct s|].
  cbn. by rewrite decide_True, IH.
Qed.

Lemma join_all_proper (l p : list string) :
  Forall proper_name l → l ≠ [] → Forall proper_name p →
  join_all (sep_join "/" l) p = sep_join "/" (l ++ p).
Proof.
  intros Hl Hne Hp. revert l Hl Hne.
  induction Hp as [|b p Hb _ IH]; intros l Hl Hne.
  - by rewrite app_nil_r.
  - cbn [join_all].
    rewrite os_path_join_names by done. rewrite IH.
    + by rewrite <- app_assoc.
    + apply Forall_app. split; [done|]. by apply Forall_singleton.
    + by destruct l.
Qed.

(** The path of a file below [start], relative to it. *)
Lemma relpath_below (cs ds sub : list string) :
  Forall proper_name cs → Forall proper_name ds → ds ≠ [] →
  Forall proper_name sub → sub ≠ [] →
  relpath ("/" ++ sep_join "/" cs)
    (sep_join "/" (ds ++ sub)) (sep_join "/" ds)
  = Some (sep_join "/" sub).
Proof.
  intros Hcs Hds Hdne Hsub Hsne. unfold relpath.
  assert (sep_join "/" (ds ++ sub) ≠ "") as Hs.
  { destruct (sep_join_last (ds ++ sub)) as (a & c & -> & Hc & _);
      [by apply Forall_app|by destruct ds|by destruct a, c]. }
  rewrite decide_False by done.
  rewrite !components_abspath
    by (done || (by apply Forall_app) || by destruct ds).
  rewrite (app_assoc cs ds sub), common_prefix_app.
  rewrite Nat.sub_diag, drop_app_length.
  destruct Hsub as [|a p Ha Hp]; [done|].
  cbn [replicate app]. f_equal.
  by apply (join_all_proper [a] p); [apply Forall_singleton| |].
Qed.

Lemma lstrip_slash_proper (L : list string) :
  Forall proper_name L → L ≠ [] →
  lstrip_slash (sep_join "/" L) = Some (sep_join "/" L).
Proof.
  intros HL Hne.
  pose proof (sep_join_proper_prefix L "" HL Hne) as Hp.
  rewrite append_nil_r in Hp.
  assert (sep_join "/" L ≠ "") as Hs.
  { destruct (sep_join_last L HL Hne) as (a & c & -> & Hc & _).
    by destruct a, c. }
  destruct (sep_join "/" L) as [|x s]; [done|].
  rewrite prefix_slash_cons in Hp. cbn [lstrip_slash].
  by destruct (Ascii.eqb_spec x "/") as [->|].
Qed.

Lemma zip_arcname_proper (L : list string) :
  Forall proper_name L → L ≠ [] →
  zip_arcname (sep_join "/" L) = Some (sep_join "/" L).
Proof.
  intros HL Hne. unfold zip_arcname.
  by rewrite normpath_relative, lstrip_slash_proper.
Qed.

(** ** The walk of a tree *)

Lemma node_induction (P : node → Prop) :
  P File →
  (∀ es, Forall (λ e, P e.2) es → P (Folder es)) →
  ∀ n, P n.
Proof.
  intros HF HD. fix IH 1. intros [|es]; [exact HF|].
  apply HD. induction es as [|[name c] es IHes]; constructor.
  - apply IH.
  - exact IHes.
Qed.

Lemma walk_Folder (top : string) (es : list (string * node)) :
  walk top (Folder es)
  = (top, dirs_of es, nondirs_of es)
    :: (e ← es; if is_dir e.2 then walk (os_path_join top e.1) e.2 else []).
Proof.
  cbn [walk]. f_equal.
  induction es as [|[name c] es IH]; [done|].
  rewrite bind_cons, <- IH. done.
Qed.

Lemma files_of_Folder (es : list (string * node)) :
  files_of (Folder es)
  = (((λ name, [name]) <$> nondirs_of es)
     ++ (e ← es; if is_dir e.2 then (λ sub, e.1 :: sub) <$> files_of e.2
                 else []))%list.
Proof.
  cbn [files_of]. f_equal.
  induction es as [|[name c] es IH]; [done|].
  rewrite bind_cons, <- IH. done.
Qed.

Lemma proper_tree_Folder (es : list (string * node)) :
  proper_tree (Folder es)
  ↔ Forall (λ e, proper_name e.1 ∧ proper_tree e.2) es.
Proof.
  cbn [proper_tree].
  induction es as [|[name c] es IH].
  - split; [constructor|done].
  - rewrite Forall_cons, <- IH. cbn [fst snd]. tauto.
Qed.

Lemma nondirs_of_proper (es : list (string * node)) :
  Forall (λ e, proper_name e.1 ∧ proper_tree e.2) es →
  Forall proper_name (nondirs_of es).
Proof.
  intros H. unfold nondirs_of. apply Forall_forall.
  intros name (e & -> & [_ He]%list_elem_of_filter)%list_elem_of_fmap.
  rewrite Forall_forall in H. by destruct (H e He).
Qed.

(** ** The members of the archive *)

Lemma zip_member_of_file (cs ds P : list string) (file : string) :
  Forall proper_name cs → Forall proper_name ds → ds ≠ [] →
  Forall proper_name P → proper_name file →
  (let file_path := os_path_join (sep_join "/" (ds ++ P)) file in
   arcname ← relpath ("/" ++ sep_join "/" cs) file_path (sep_join "/" ds);
   name ← zip_arcname arcname;
   Some (file_path, name))
  = Some (zip_member ds (P ++ [file])).
Proof.
  intros Hcs Hds Hne HP Hfile. cbv zeta.
  rewrite os_path_join_names, <- app_assoc
    by (done || by apply Forall_app || by destruct ds).
  assert (Forall proper_name (P ++ [file])) as Hsub.
  { apply Forall_app. split; [done|]. by apply Forall_singleton. }
  rewrite relpath_below by (done || by destruct P).
  cbn [mbind option_bind].
  rewrite zip_arcname_proper by (done || by destruct P).
  done.
Qed.

Lemma walk_members (cs ds : list string) :
  Forall proper_name cs → Forall proper_name ds → ds ≠ [] →
  ∀ (n : node) (P : list string),
    proper_tree n → Forall proper_name P →
    Forall2
      (λ x y,
         (let '(root, file) := x in
          let file_path := os_path_join root file in
          arcname ← relpath ("/" ++ sep_join "/" cs) file_path
                      (sep_join "/" ds);
          name ← zip_arcname arcname;
          Some (file_path, name)) = Some y)
      ('(root, _, files) ← walk (sep_join "/" (ds ++ P)) n;
       (λ file, (root, file)) <$> files)
      (zip_member ds <$> ((λ sub, P ++ sub)%list <$> files_of n)).
Proof.
  intros Hcs Hds Hne n.
  induction n as [|es IH] using node_induction; intros P Hn HP.
  - constructor.
  - rewrite walk_Folder, bind_cons, files_of_Folder, !fmap_app.
    apply proper_tree_Folder in Hn.
    apply Forall2_app.
    + rewrite <- !list_fmap_compose. apply Forall2_fmap.
      apply Forall_Forall2_diag.
      eapply Forall_impl; [by apply nondirs_of_proper|].
      intros file Hfile. by apply zip_member_of_file.
    + clear -IH Hn HP Hcs Hds Hne.
      induction es as [|[name c] es IHes]; [constructor|].
      apply Forall_cons in IH as [IHc IH].
      apply Forall_cons in Hn as [[Hname Hc] Hn].
      rewrite !bind_cons, bind_app, !fmap_app.
      apply Forall2_app; [|by apply IHes].
      cbn [fst snd] in *. destruct (is_dir c); [|constructor].
      rewrite os_path_join_names, <- app_assoc
        by (done || by apply Forall_app || by destruct ds).
      rewrite <- (list_fmap_compose (λ sub, name :: sub)).
      assert (Forall proper_name (P ++ [name])) as HP'.
      { apply Forall_app. split; [done|]. by apply Forall_singleton. }
      specialize (IHc (P ++ [name])%list Hc HP').
      erewrite (list_fmap_ext _ (λ sub, (P ++ [name]) ++ sub)%list);
        [exact IHc|].
      intros i sub _. cbn. by rewrite <- app_assoc.
Qed.

Lemma mapM_walk (cs ds : list string) (tree : node) :
  Forall proper_name cs → Forall proper_name ds → ds ≠ [] →
  proper_tree tree →
  mapM (λ '(root, file),
          let file_path := os_path_join root file in
          arcname ← relpath ("/" ++ sep_join "/" cs) file_path
                      (sep_join "/" ds);
          name ← zip_arcname arcname;
          Some (file_path, name))
    ('(root, _, files) ← walk (sep_join "/" ds) tree;
     (λ file, (root, file)) <$> files)
  = Some (zip_member ds <$> files_of tree).
Proof.
  intros Hcs Hds Hne Htree. apply mapM_Some.
  pose proof (walk_members cs ds Hcs Hds Hne tree [] Htree) as H.
  rewrite app_nil_r in H.
  rewrite (list_fmap_ext (λ sub, [] ++ sub)%list id (files_of tree)) in H
    by done.
  rewrite list_fmap_id in H. apply H. constructor.
Qed.

Lemma distinct_names_Folder (es : list (string * node)) :
  distinct_names (Folder es)
  ↔ NoDup (fst <$> es) ∧ Forall (λ e, distinct_names e.2) es.
Proof.
  cbn [distinct_names]. apply and_iff_compat_l.
  induction es as [|[name c] es IH].
  - split; [constructor|done].
  - rewrite Forall_cons, <- IH. cbn [fst snd]. tauto.
Qed.

Lemma files_of_proper (n : node) :
  proper_tree n →
  Forall (λ sub, Forall proper_name sub ∧ sub ≠ []) (files_of n).
Proof.
  induction n as [|es IH] using node_induction; intros Hn.
  - constructor.
  - rewrite files_of_Folder. apply proper_tree_Folder in Hn.
    apply Forall_app. split.
    + apply Forall_fmap.
      eapply Forall_impl; [by apply nondirs_of_proper|].
      intros name Hname. cbn. split; [by apply Forall_singleton|done].
    + induction es as [|[name c] es IHes]; [constructor|].
      apply Forall_cons in IH as [IHc IH].
      apply Forall_cons in Hn as [[Hname Hc] Hn].
      rewrite bind_cons. apply Forall_app. split; [|by apply IHes].
      cbn [fst snd] in *. destruct (is_dir c); [|constructor].
      apply Forall_fmap. eapply Forall_impl; [by apply IHc|].
      intros sub [Hsub _]. cbn. split; [by constructor|done].
Qed.

Lemma NoDup_fmap_on {A B} (f : A → B) (l : list A) :
  NoDup l →
  (∀ x y, x ∈ l → y ∈ l → f x = f y → x = y) →
  NoDup (f <$> l).
Proof.
  induction 1 as [|x l Hx Hl IH]; intros Hinj; [constructor|].
  rewrite fmap_cons. constructor.
  - intros (y & Hxy & Hy)%list_elem_of_fmap.
    apply Hinj in Hxy; [|by left|by right]. by subst.
  - apply IH. intros y z Hy Hz. apply Hinj; by right.
Qed.

Lemma sep_join_inj (l1 l2 : list string) :
  Forall no_slash l1 → l1 ≠ [] → Forall no_slash l2 → l2 ≠ [] →
  sep_join "/" l1 = sep_join "/" l2 → l1 = l2.
Proof.
  intros H1 Hn1 H2 Hn2 Heq.
  rewrite <- (split_sep_join l1), <- (split_sep_join l2) by done.
  by rewrite Heq.
Qed.

Lemma dirs_files_first (es : list (string * node)) (sub : list string) :
  sub ∈ (e ← es; if is_dir e.2 then (λ sub, e.1 :: sub) <$> files_of e.2
                 else []) →
  ∃ name c rest, (name, c) ∈ es ∧ is_dir c = true ∧ sub = name :: rest
                 ∧ rest ∈ files_of c.
Proof.
  intros ([name c] & Hsub & He)%list_elem_of_bind. cbn [fst snd] in Hsub.
  destruct (is_dir c) eqn:Hc; [|by apply elem_of_nil in Hsub].
  apply list_elem_of_fmap in Hsub as (rest & -> & Hrest).
  by exists name, c, rest.
Qed.

Lemma entry_unique (es : list (string * node)) (name : string)
    (c c' : node) :
  NoDup (fst <$> es) → (name, c) ∈ es → (name, c') ∈ es → c = c'.
Proof.
  induction es as [|[n0 c0] es IHes]; intros Hnames He He'.
  - by apply elem_of_nil in He.
  - rewrite fmap_cons in Hnames.
    apply NoDup_cons in Hnames as [Hn0 Hnames].
    apply elem_of_cons in He as [He|He];
      apply elem_of_cons in He' as [He'|He']; simplify_eq.
    + done.
    + exfalso. apply Hn0, list_elem_of_fmap. by exists (n0, c').
    + exfalso. apply Hn0, list_elem_of_fmap. by exists (n0, c).
    + by apply IHes.
Qed.

Lemma files_of_NoDup (n : node) :
  distinct_names n → NoDup (files_of n).
Proof.
  induction n as [|es IH] using node_induction; intros Hn.
  - constructor.
  - rewrite files_of_Folder.
    apply distinct_names_Folder in Hn as [Hnames Hes].
    apply NoDup_app. split; [|split].
    + apply NoDup_fmap_on; [|by intros x y _ _ [= ->]].
      unfold nondirs_of. clear -Hnames.
      induction es as [|[name c] es IHes]; [constructor|].
      apply NoDup_cons in Hnames as [Hname Hnames].
      rewrite filter_cons. cbn [snd].
      destruct (decide (is_dir c = false)); [|by apply IHes].
      rewrite fmap_cons. constructor; [|by apply IHes].
      intros ([name' c'] & Heq & [_ He]%list_elem_of_filter)%list_elem_of_fmap.
      cbn in Heq. subst name'. apply Hname.
      apply list_elem_of_fmap. by exists (name, c').
    + intros sub (name & -> & Hname)%list_elem_of_fmap Hsub.
      apply dirs_files_first in Hsub
        as (name' & c & rest & He & Hc & [= <- <-] & _).
      unfold nondirs_of in Hname.
      apply list_elem_of_fmap in Hname
        as ([name' c'] & Heq & [Hc' He']%list_elem_of_filter).
      cbn in Heq, Hc'. subst name'.
      rewrite (entry_unique es name c c') in Hc by done. congruence.
    + clear -IH Hnames Hes.
      induction es as [|[name c] es IHes]; [constructor|].
      apply Forall_cons in IH as [IHc IH].
      apply Forall_cons in Hes as [Hc Hes].
      apply NoDup_cons in Hnames as [Hname Hnames].
      rewrite bind_cons. apply NoDup_app. split; [|split].
      * cbn [fst snd] in *. destruct (is_dir c); [|constructor].
        apply NoDup_fmap_on; [by apply IHc|by intros x y _ _ [= ->]].
      * intros sub Hsub Hrest. cbn [fst snd] in *.
        destruct (is_dir c); [|by apply elem_of_nil in Hsub].
        apply list_elem_of_fmap in Hsub as (rest & -> & _).
        apply dirs_files_first in Hrest
          as (name' & c' & rest' & He & _ & [= <- <-] & _).
        apply Hname, list_elem_of_fmap. by exists (name, c').
      * by apply IHes.
Qed.

Lemma os_path_join_sep_join (ds sub : list string) :
  Forall proper_name ds → ds ≠ [] → Forall proper_name sub → sub ≠ [] →
  os_path_join (sep_join "/" ds) (sep_join "/" sub)
  = sep_join "/" (ds ++ sub).
Proof.
  intros Hds Hdne Hsub Hsne. unfold os_path_join.
  pose proof (sep_join_proper_prefix sub "" Hsub Hsne) as Hp.
  rewrite append_nil_r in Hp. rewrite Hp.
  destruct (sep_join_last ds Hds Hdne) as (a & c & Heq & Hc & Hns).
  rewrite decide_False by (rewrite Heq; by destruct a, c).
  assert (String.prefix "/" (String.rev (sep_join "/" ds)) = false) as ->.
  { rewrite Heq. by apply ends_slash_append. }
  by rewrite sep_join_app.
Qed.

(** ** The archive *)

(** X27.  For a directory given by a relative path of proper names, under
    a working directory of proper names, the archive holds one member for
    each file below the directory, in the order of the walk: the file is
    read at the directory's path followed by the names that lead to it, and
    stored under those names alone. *)
Theorem zip_plots_directory_spec (cs ds : list string) (tree : node) :
  Forall proper_name cs → Forall proper_name ds → ds ≠ [] →
  proper_tree tree →
  zip_plots_directory ("/" ++ sep_join "/" cs) (sep_join "/" ds) (Some tree)
  = Some (zip_member ds <$> files_of tree).
Proof.
  intros Hcs Hds Hne Htree. unfold zip_plots_directory.
  by apply mapM_walk.
Qed.

(** X28.  When "plots" is a directory with at least one entry, the button
    offers the archive of all files below it, whatever their extension; a
    directory that holds only empty directories gives an empty archive, not
    the warning. *)
Theorem download_all_plots_spec (cs : list string)
    (es : list (string * node)) :
  Forall proper_name cs → proper_tree (Folder es) → es ≠ [] →
  download_all_plots ("/" ++ sep_join "/" cs) (Some (Folder es))
  = Download_ZIP (zip_member ["plots"] <$> files_of (Folder es)).
Proof.
  intros Hcs Htree Hne. destruct es as [|e es]; [done|].
  assert (Forall proper_name ["plots"]) as Hp.
  { apply Forall_singleton.
    by apply (bool_decide_unpack (proper_name "plots")). }
  pose proof (mapM_walk cs ["plots"] (Folder (e :: es)) Hcs Hp
                ltac:(done) Htree) as H.
  change (zip_plots_directory ("/" ++ sep_join "/" cs) "plots"
            (Some (Folder (e :: es)))
          = Some (zip_member ["plots"] <$> files_of (Folder (e :: es))))
    in H.
  unfold download_all_plots. by rewrite H.
Qed.

(** X29.  When no directory holds two entries of one name, no two members
    of the archive are stored under the same name. *)
Theorem zip_names_distinct (cs ds : list string) (tree : node) :
  Forall proper_name cs → Forall proper_name ds → ds ≠ [] →
  proper_tree tree → distinct_names tree →
  ∃ members,
    zip_plots_directory ("/" ++ sep_join "/" cs) (sep_join "/" ds)
      (Some tree) = Some members
    ∧ NoDup (snd <$> members).
Proof.
  intros Hcs Hds Hne Htree Hdist. eexists. split.
  { unfold zip_plots_directory. by apply mapM_walk. }
  rewrite <- list_fmap_compose. apply NoDup_fmap_on.
  - by apply files_of_NoDup.
  - pose proof (files_of_proper tree Htree) as Hall.
    rewrite Forall_forall in Hall.
    intros x y [Hx Hxne]%Hall [Hy Hyne]%Hall. cbn.
    apply sep_join_inj; auto using Forall_proper_no_slash.
Qed.

(** X30.  Every member's name leads back to the file it was read from:
    joined to the directory it gives the path that was read. *)
Theorem zip_names_lead_back (cs ds : list string) (tree : node) :
  Forall proper_name cs → Forall proper_name ds → ds ≠ [] →
  proper_tree tree →
  ∃ members,
    zip_plots_directory ("/" ++ sep_join "/" cs) (sep_join "/" ds)
      (Some tree) = Some members
    ∧ Forall (λ m, os_path_join (sep_join "/" ds) m.2 = m.1) members.
Proof.
  intros Hcs Hds Hne Htree. eexists. split.
  { unfold zip_plots_directory. by apply mapM_walk. }
  apply Forall_fmap.
  eapply Forall_impl; [by apply files_of_proper|].
  intros sub [Hsub Hsne]. cbn. by apply os_path_join_sep_join.
Qed.

Lemma example_cwd_proper : Forall proper_name example_cwd.
Proof. by apply (bool_decide_unpack (Forall proper_name example_cwd)). Qed.

Lemma plots_proper : Forall proper_name ["plots"].
Proof. by apply (bool_decide_unpack (Forall proper_name ["plots"])). Qed.

Lemma example_plots_proper : proper_tree example_plots.
Proof.
  cbn -[proper_name].
  repeat match goal with
         | |- proper_name ?s => by apply (bool_decide_unpack (proper_name s))
         | |- _ ∧ _ => split
         | |- True => exact I
         end.
Qed.

Lemma example_plots_distinct : distinct_names example_plots.
Proof.
  cbn [distinct_names example_plots fmap list_fmap fst].
  repeat match goal with
         | |- NoDup ?l => by apply (bool_decide_unpack (NoDup l))
         | |- _ ∧ _ => split
         | |- True => exact I
         end.
Qed.

Lemma zip_plots_directory_spec_witness :
  zip_plots_directory "/home/user/app" "plots" (Some example_plots)
  = Some [("plots/a.pdf", "a.pdf"); ("plots/c.pdf", "c.pdf");
          ("plots/run1/b.pdf", "run1/b.pdf")].
Proof.
  exact (zip_plots_directory_spec example_cwd ["plots"] example_plots
           example_cwd_proper plots_proper ltac:(done)
           example_plots_proper).
Defined.

Lemma download_all_plots_spec_witness :
  download_all_plots "/home/user/app"
    (Some (Folder [("old", Folder [("older", Folder [])])]))
  = Download_ZIP [].
Proof.
  apply (download_all_plots_spec example_cwd
           [("old", Folder [("older", Folder [])])]).
  - exact example_cwd_proper.
  - cbn -[proper_name].
    repeat match goal with
           | |- proper_name ?s =>
               by apply (bool_decide_unpack (proper_name s))
           | |- _ ∧ _ => split
           | |- True => exact I
           end.
  - done.
Defined.

Lemma zip_names_distinct_witness :
  ∃ members,
    zip_plots_directory "/home/user/app" "plots" (Some example_plots)
    = Some members
    ∧ NoDup (snd <$> members).
Proof.
  exact (zip_names_distinct example_cwd ["plots"] example_plots
           example_cwd_proper plots_proper ltac:(done)
           example_plots_proper example_plots_distinct).
Defined.

Lemma zip_names_lead_back_witness :
  ∃ members,
    zip_plots_directory "/home/user/app" "plots" (Some example_plots)
    = Some members
    ∧ Forall (λ m, os_path_join "plots" m.2 = m.1) members.
Proof.
  exact (zip_names_lead_back example_cwd ["plots"] example_plots
           example_cwd_proper plots_proper ltac:(done)
           example_plots_proper).
Defined.
